(** * promlazy: lazily registered Prometheus metrics

    A shallow embedding of [lazy.go].  A [Factory] collects the metrics its
    typed constructors create and hands out proxies; the first write through
    any proxy (or an explicit [Register]) passes the whole batch to the
    backing registerer, once.

    Go objects that are shared through pointers (factories, registries, the
    real metrics) live in a store, the [World]; a pointer is an index into
    it.  A Go panic is an outcome of its own, carrying the store as the
    panicking call left it (what a deferred [recover] would see).  Calls
    run one after the other: the mutex inside [sync.Once] and concurrent
    callers are not modelled. *)

From Stdlib Require Import Floats.PrimFloat.
From stdpp Require Import base option list sets strings.

(** ** The client library (prometheus/client_golang) as the code uses it *)

Definition float64 : Type := PrimFloat.float.

Inductive Kind := KCounter | KGauge | KSummary | KHistogram.

(** [prometheus.CounterOpts] and its siblings: the fields that make up a
    metric's description. *)
Record Opts := mkOpts {
  Name : string;
  Help : string;
  ConstLabels : list (string * string)
}.

(** What the registry compares: name and labels. *)
Definition identity (o : Opts) : string * list (string * string) :=
  (Name o, ConstLabels o).

(** A call a real metric can receive, with its argument. *)
Inductive Call :=
| CallInc
| CallDec
| CallAdd (x : float64)
| CallSub (x : float64)
| CallSet (x : float64)
| CallSetToCurrentTime
| CallObserve (x : float64).

(** A real metric in the store: what it was built from and every call it
    has received, oldest first. *)
Record Metric := mkMetric {
  kind : Kind;
  opts : Opts;
  calls : list Call
}.

Abbreviation MetricRef := nat.
Abbreviation RegistererRef := nat.
Abbreviation FactoryRef := nat.

(** An interface value [prometheus.Collector] ([Counter], [Gauge], ...): a
    pointer to the real metric together with its immutable description. *)
Record Collector := mkCollector {
  c_ref : MetricRef;
  c_opts : Opts
}.

(** How a [MustRegister] call ends: normally, or in a panic; either way with
    the registry as the call left it. *)
Inductive Outcome (R : Type) :=
| Done (reg : R)
| Panicked (reg : R).
Arguments Done {R} reg.
Arguments Panicked {R} reg.

(** The interface [prometheus.Registerer], over the registry's state [R];
    [registered] is what a gather of the registry would show. *)
Class Registerer (R : Type) := {
  MustRegister : R → list Collector → Outcome R;
  registered : R → list Collector
}.

(** [conflict_free seen cs]: no collector of [cs] repeats an identity of
    [seen] or of a collector before it in [cs]. *)
Fixpoint conflict_free (seen : list (string * list (string * string)))
    (cs : list Collector) : bool :=
  match cs with
  | [] => true
  | c :: cs' =>
      bool_decide (identity (c_opts c) ∉ seen)
      && conflict_free (identity (c_opts c) :: seen) cs'
  end.

Definition identities (cs : list Collector) : list (string * list (string * string)) :=
  (λ c, identity (c_opts c)) <$> cs.

(** Modelled from the spec: the registry collaborator, which is not part of
    this repository.  Sections 3 and 6: a batch register-or-fail operation
    that accepts a batch free of identity collisions (among its members and
    with what is registered), after which the batch is registered beside
    what was, and fails fatally on a collision. *)
Class RegistererLaws (R : Type) `{!Registerer R} : Prop := {
  MustRegister_accept (reg : R) (cs : list Collector) :
    conflict_free (identities (registered reg)) cs = true →
    ∃ reg', MustRegister reg cs = Done reg'
            ∧ registered reg' ≡ₚ registered reg ++ cs;
  MustRegister_reject (reg : R) (cs : list Collector) :
    conflict_free (identities (registered reg)) cs = false →
    ∃ reg', MustRegister reg cs = Panicked reg'
}.

(** Modelled from the spec: a registry that "either accepts all or rejects
    the whole batch" (section 3): its state is the list of registered
    collectors, in registration order. *)
Definition Registry : Type := list Collector.

Definition Registry_MustRegister (reg : Registry) (cs : list Collector)
    : Outcome Registry :=
  if conflict_free (identities reg) cs then Done (reg ++ cs) else Panicked reg.

#[global] Instance Registry_Registerer : Registerer Registry := {|
  MustRegister := Registry_MustRegister;
  registered := λ reg, reg
|}.

(** The contract leaves open what a rejected batch leaves behind.  A second
    registry, to keep the properties below honest about that: it takes the
    batch one collector at a time and panics at the first collision, keeping
    what it had accepted until then. *)
Record Stepwise := mkStepwise { accepted : list Collector }.

Fixpoint Stepwise_MustRegister (reg : list Collector) (cs : list Collector)
    : Outcome Stepwise :=
  match cs with
  | [] => Done (mkStepwise reg)
  | c :: cs' =>
      if bool_decide (identity (c_opts c) ∈ identities reg)
      then Panicked (mkStepwise reg)
      else Stepwise_MustRegister (reg ++ [c]) cs'
  end.

#[global] Instance Stepwise_Registerer : Registerer Stepwise := {|
  MustRegister := λ reg cs, Stepwise_MustRegister (accepted reg) cs;
  registered := accepted
|}.

(** The constructors [prometheus.NewCounter], [NewGauge], [NewSummary] and
    [NewHistogram] panic on options they reject; which options those are is
    the client library's business. *)
Class OptsValidator := valid_opts : Kind → Opts → bool.

(** ** [lazy.go] *)

(** [sync.Once]. *)
Record Once := mkOnce { done : bool }.

Record Factory := mkFactory {
  r : RegistererRef;
  initOnce : Once;
  collectors : list Collector
}.

Record lazyCounter := mkLazyCounter { lc_Counter : Collector; lc_Factory : FactoryRef }.
Record lazyGauge := mkLazyGauge { lg_Gauge : Collector; lg_Factory : FactoryRef }.
Record lazySummary := mkLazySummary { ls_Summary : Collector; ls_Factory : FactoryRef }.
Record lazyHistogram := mkLazyHistogram { lh_Histogram : Collector; lh_Factory : FactoryRef }.

Inductive PanicValue :=
| RegistrationError   (* MustRegister panicked *)
| NilDereference      (* a pointer that points at nothing *)
| InvalidOpts.        (* a prometheus constructor rejected its options *)

Inductive Result (W A : Type) :=
| Ok (a : A) (w : W)
| Panic (e : PanicValue) (w : W).
Arguments Ok {W A} a w.
Arguments Panic {W A} e w.

(** [prometheus.DefaultRegisterer], a package-level variable. *)
Definition DefaultRegisterer : RegistererRef := 0.

(** Go code that reads and writes a store [W] and may panic. *)
Definition Go (W A : Type) : Type := W → Result W A.

Definition ret {W A} (a : A) : Go W A := λ w, Ok a w.

Definition bind {W A B} (m : Go W A) (k : A → Go W B) : Go W B :=
  λ w, match m w with
       | Ok a w' => k a w'
       | Panic e w' => Panic e w'
       end.

Definition panic {W A} (e : PanicValue) : Go W A := λ w, Panic e w.

Declare Scope go_scope.
Delimit Scope go_scope with go.
Notation "x ← y ; z" := (bind y (λ x, z)) (only parsing) : go_scope.
Notation "y ;; z" := (bind y (λ _, z)) (only parsing) : go_scope.
Local Open Scope go_scope.

Section Promlazy.
Context {R : Type} {Reg : Registerer R} {Val : OptsValidator}.

(** The store: real metrics, factories and registries, each addressed by
    its position. *)
Record World := mkWorld {
  metrics : list Metric;
  factories : list Factory;
  registries : list R
}.

Definition set_metrics (ms : list Metric) (w : World) : World :=
  mkWorld ms (factories w) (registries w).
Definition set_factories (fs : list Factory) (w : World) : World :=
  mkWorld (metrics w) fs (registries w).
Definition set_registries (rs : list R) (w : World) : World :=
  mkWorld (metrics w) (factories w) rs.

Local Abbreviation M := (Go World).

(** Pointer reads; a pointer that points at nothing panics. *)
Definition load_factory (f : FactoryRef) : M Factory :=
  λ w, match factories w !! f with
       | Some fac => Ok fac w
       | None => Panic NilDereference w
       end.

Definition load_registry (rr : RegistererRef) : M R :=
  λ w, match registries w !! rr with
       | Some reg => Ok reg w
       | None => Panic NilDereference w
       end.

Definition store_factory (f : FactoryRef) (fac : Factory) : M unit :=
  λ w, Ok tt (set_factories (<[f := fac]> (factories w)) w).

Definition store_registry (rr : RegistererRef) (reg : R) : M unit :=
  λ w, Ok tt (set_registries (<[rr := reg]> (registries w)) w).

(** The real metric's method [c], called on the metric behind [m]: the
    metric takes the call. *)
Definition Metric_call (c : Call) (m : Collector) : M unit :=
  λ w, match metrics w !! c_ref m with
       | Some cell =>
           Ok tt (set_metrics
                    (<[c_ref m := mkMetric (kind cell) (opts cell) (calls cell ++ [c])]>
                       (metrics w)) w)
       | None => Panic NilDereference w
       end.

(** [prometheus.NewCounter(opts)] and its siblings: a new real metric. *)
Definition prometheus_New (k : Kind) (o : Opts) : M Collector :=
  λ w, if valid_opts k o
       then Ok (mkCollector (length (metrics w)) o)
               (set_metrics (metrics w ++ [mkMetric k o []]) w)
       else Panic InvalidOpts w.

(** [f.r.MustRegister(cs...)] through the interface value [f.r]. *)
Definition Registerer_MustRegister (rr : RegistererRef) (cs : list Collector) : M unit :=
  reg ← load_registry rr;
  match MustRegister reg cs with
  | Done reg' => store_registry rr reg'
  | Panicked reg' => store_registry rr reg';; panic RegistrationError
  end.

(** Modelled from the spec: the one-shot gate (section 3: UNFIRED, then
    FIRED, with no way back), which the code gets from [sync.Once] of Go's
    standard library.  [fire] marks the gate of the factory at [f]. *)
Definition fire (f : FactoryRef) (w : World) : World :=
  match factories w !! f with
  | Some fac =>
      set_factories (<[f := mkFactory (r fac) (mkOnce true) (collectors fac)]> (factories w)) w
  | None => w
  end.

(** Modelled from the spec: [f.initOnce.Do(body)].  Sections 4.1 and 9: the
    body runs on the first call only, and every later call returns at once.
    The gate is marked when the body is left, also when it is left by a
    panic: [Do] marks it in a deferred call, and the sync package documents
    that a panicking body counts as having returned. *)
Definition initOnce_Do (f : FactoryRef) (body : M unit) : M unit :=
  fac ← load_factory f;
  if done (initOnce fac) then ret tt
  else λ w, match body w with
            | Ok _ w' => Ok tt (fire f w')
            | Panic e w' => Panic e (fire f w')
            end.

(** [With] returns a [Factory] value; the variable the caller keeps it in is
    the object every later method call points at, so [With] here yields the
    address of that variable. *)
Definition With (rr : RegistererRef) : M FactoryRef :=
  λ w, Ok (length (factories w))
          (set_factories (factories w ++ [mkFactory rr (mkOnce false) []]) w).

Definition New : M FactoryRef := With DefaultRegisterer.

Definition init (f : FactoryRef) : M unit :=
  fac ← load_factory f;
  Registerer_MustRegister (r fac) (collectors fac).

Definition Register (f : FactoryRef) : M unit :=
  initOnce_Do f (init f).

(** [f.collectors = append(f.collectors, c)] *)
Definition append_collector (f : FactoryRef) (c : Collector) : M unit :=
  fac ← load_factory f;
  store_factory f (mkFactory (r fac) (initOnce fac) (collectors fac ++ [c])).

Definition NewCounter (f : FactoryRef) (o : Opts) : M lazyCounter :=
  c ← prometheus_New KCounter o;
  append_collector f c;;
  ret (mkLazyCounter c f).

Definition lazyCounter_Inc (l : lazyCounter) : M unit :=
  Register (lc_Factory l);;
  Metric_call CallInc (lc_Counter l).

Definition lazyCounter_Add (l : lazyCounter) (x : float64) : M unit :=
  Register (lc_Factory l);;
  Metric_call (CallAdd x) (lc_Counter l).

Definition NewGauge (f : FactoryRef) (o : Opts) : M lazyGauge :=
  c ← prometheus_New KGauge o;
  append_collector f c;;
  ret (mkLazyGauge c f).

Definition lazyGauge_Set (l : lazyGauge) (x : float64) : M unit :=
  Register (lg_Factory l);;
  Metric_call (CallSet x) (lg_Gauge l).

Definition lazyGauge_Inc (l : lazyGauge) : M unit :=
  Register (lg_Factory l);;
  Metric_call CallInc (lg_Gauge l).

Definition lazyGauge_Dec (l : lazyGauge) : M unit :=
  Register (lg_Factory l);;
  Metric_call CallDec (lg_Gauge l).

Definition lazyGauge_Add (l : lazyGauge) (x : float64) : M unit :=
  Register (lg_Factory l);;
  Metric_call (CallAdd x) (lg_Gauge l).

Definition lazyGauge_Sub (l : lazyGauge) (x : float64) : M unit :=
  Register (lg_Factory l);;
  Metric_call (CallSub x) (lg_Gauge l).

Definition lazyGauge_SetToCurrentTime (l : lazyGauge) : M unit :=
  Register (lg_Factory l);;
  Metric_call CallSetToCurrentTime (lg_Gauge l).

Definition NewSummary (f : FactoryRef) (o : Opts) : M lazySummary :=
  c ← prometheus_New KSummary o;
  append_collector f c;;
  ret (mkLazySummary c f).

Definition lazySummary_Observe (l : lazySummary) (x : float64) : M unit :=
  Register (ls_Factory l);;
  Metric_call (CallObserve x) (ls_Summary l).

Definition NewHistogram (f : FactoryRef) (o : Opts) : M lazyHistogram :=
  c ← prometheus_New KHistogram o;
  append_collector f c;;
  ret (mkLazyHistogram c f).

Definition lazyHistogram_Observe (l : lazyHistogram) (x : float64) : M unit :=
  Register (lh_Factory l);;
  Metric_call (CallObserve x) (lh_Histogram l).

(** *** Methods the proxies get from the embedded real metric

    [lazyCounter] embeds [prometheus.Counter] (and its siblings embed theirs),
    so [Desc], [Write], [Describe] and [Collect] of a proxy are the embedded
    metric's own: Go promotes them, and [lazy.go] defines none of them. *)

Inductive Query := QDesc | QWrite | QDescribe | QCollect.

Inductive Answer :=
| ADesc (o : Opts)
| AWrite (k : Kind) (received : list Call)
| ADescribe (ds : list Opts)
| ACollect (ms : list Collector).

(** The real metric's answer to a read: its description, or its state. *)
Definition Metric_query (q : Query) (m : Collector) : M Answer :=
  λ w, match metrics w !! c_ref m with
       | Some cell =>
           Ok match q with
              | QDesc => ADesc (opts cell)
              | QWrite => AWrite (kind cell) (calls cell)
              | QDescribe => ADescribe [opts cell]
              | QCollect => ACollect [m]
              end w
       | None => Panic NilDereference w
       end.

Definition lazyCounter_promoted (q : Query) (l : lazyCounter) : M Answer :=
  Metric_query q (lc_Counter l).
Definition lazyGauge_promoted (q : Query) (l : lazyGauge) : M Answer :=
  Metric_query q (lg_Gauge l).
Definition lazySummary_promoted (q : Query) (l : lazySummary) : M Answer :=
  Metric_query q (ls_Summary l).
Definition lazyHistogram_promoted (q : Query) (l : lazyHistogram) : M Answer :=
  Metric_query q (lh_Histogram l).

(** *** The entry points, gathered *)

(** A proxy of any kind. *)
Inductive Proxy :=
| PCounter (l : lazyCounter)
| PGauge (l : lazyGauge)
| PSummary (l : lazySummary)
| PHistogram (l : lazyHistogram).

(** The embedded real metric and the embedded factory pointer. *)
Definition wrapped (p : Proxy) : Collector :=
  match p with
  | PCounter l => lc_Counter l
  | PGauge l => lg_Gauge l
  | PSummary l => ls_Summary l
  | PHistogram l => lh_Histogram l
  end.

Definition owner (p : Proxy) : FactoryRef :=
  match p with
  | PCounter l => lc_Factory l
  | PGauge l => lg_Factory l
  | PSummary l => ls_Factory l
  | PHistogram l => lh_Factory l
  end.

Definition promoted (q : Query) (p : Proxy) : M Answer :=
  match p with
  | PCounter l => lazyCounter_promoted q l
  | PGauge l => lazyGauge_promoted q l
  | PSummary l => lazySummary_promoted q l
  | PHistogram l => lazyHistogram_promoted q l
  end.

(** The proxy of kind [k] around [c], as the constructor of that kind
    builds it: [lazyCounter{c, f}] and its siblings. *)
Definition proxy_of (k : Kind) (c : Collector) (f : FactoryRef) : Proxy :=
  match k with
  | KCounter => PCounter (mkLazyCounter c f)
  | KGauge => PGauge (mkLazyGauge c f)
  | KSummary => PSummary (mkLazySummary c f)
  | KHistogram => PHistogram (mkLazyHistogram c f)
  end.

(** The four typed constructors as one, by kind. *)
Definition construct (k : Kind) (f : FactoryRef) (o : Opts) : M Proxy :=
  match k with
  | KCounter => l ← NewCounter f o; ret (PCounter l)
  | KGauge => l ← NewGauge f o; ret (PGauge l)
  | KSummary => l ← NewSummary f o; ret (PSummary l)
  | KHistogram => l ← NewHistogram f o; ret (PHistogram l)
  end.

(** Every mutating method [lazy.go] defines on a proxy, with its receiver
    and argument. *)
Inductive Mutation :=
| Counter_Inc (l : lazyCounter)
| Counter_Add (l : lazyCounter) (x : float64)
| Gauge_Set (l : lazyGauge) (x : float64)
| Gauge_Inc (l : lazyGauge)
| Gauge_Dec (l : lazyGauge)
| Gauge_Add (l : lazyGauge) (x : float64)
| Gauge_Sub (l : lazyGauge) (x : float64)
| Gauge_SetToCurrentTime (l : lazyGauge)
| Summary_Observe (l : lazySummary) (x : float64)
| Histogram_Observe (l : lazyHistogram) (x : float64).

Definition mutate (m : Mutation) : M unit :=
  match m with
  | Counter_Inc l => lazyCounter_Inc l
  | Counter_Add l x => lazyCounter_Add l x
  | Gauge_Set l x => lazyGauge_Set l x
  | Gauge_Inc l => lazyGauge_Inc l
  | Gauge_Dec l => lazyGauge_Dec l
  | Gauge_Add l x => lazyGauge_Add l x
  | Gauge_Sub l x => lazyGauge_Sub l x
  | Gauge_SetToCurrentTime l => lazyGauge_SetToCurrentTime l
  | Summary_Observe l x => lazySummary_Observe l x
  | Histogram_Observe l x => lazyHistogram_Observe l x
  end.

Definition receiver (m : Mutation) : Proxy :=
  match m with
  | Counter_Inc l | Counter_Add l _ => PCounter l
  | Gauge_Set l _ | Gauge_Inc l | Gauge_Dec l | Gauge_Add l _
  | Gauge_Sub l _ | Gauge_SetToCurrentTime l => PGauge l
  | Summary_Observe l _ => PSummary l
  | Histogram_Observe l _ => PHistogram l
  end.

(** The call on the real metric that carries the same name and argument. *)
Definition same_call (m : Mutation) : Call :=
  match m with
  | Counter_Inc _ | Gauge_Inc _ => CallInc
  | Counter_Add _ x | Gauge_Add _ x => CallAdd x
  | Gauge_Set _ x => CallSet x
  | Gauge_Dec _ => CallDec
  | Gauge_Sub _ x => CallSub x
  | Gauge_SetToCurrentTime _ => CallSetToCurrentTime
  | Summary_Observe _ x | Histogram_Observe _ x => CallObserve x
  end.

(** A caller's actions on one factory and its proxies, in program order. *)
Inductive Step :=
| StepNew (k : Kind) (o : Opts)
| StepRegister
| StepMutate (m : Mutation).

Definition step (f : FactoryRef) (s : Step) : M unit :=
  match s with
  | StepNew k o => construct k f o;; ret tt
  | StepRegister => Register f
  | StepMutate m => mutate m
  end.

Fixpoint run (f : FactoryRef) (ss : list Step) : M unit :=
  match ss with
  | [] => ret tt
  | s :: ss' => step f s;; run f ss'
  end.

(** [s] acts on the factory at [f]: a mutation does when its receiver came
    from [f]. *)
Definition acts_on (f : FactoryRef) (s : Step) : Prop :=
  match s with
  | StepMutate m => owner (receiver m) = f
  | _ => True
  end.

(** The store a panic or a normal return leaves behind. *)
Definition final {A} (res : Result World A) : World :=
  match res with
  | Ok _ w => w
  | Panic _ w => w
  end.

(** The gate of the factory at [f] has fired. *)
Definition fired (f : FactoryRef) (w : World) : Prop :=
  ∃ fac, factories w !! f = Some fac ∧ done (initOnce fac) = true.

(** The pending collection of the factory at [f]. *)
Definition pending (f : FactoryRef) (w : World) : list Collector :=
  match factories w !! f with
  | Some fac => collectors fac
  | None => []
  end.

(** The real metric behind [c] is registered with some registry of the
    store. *)
Definition is_registered (c : Collector) (w : World) : Prop :=
  ∃ reg c', reg ∈ registries w ∧ c' ∈ registered reg ∧ c_ref c' = c_ref c.

(** The first use of the factory at [f] fails: an explicit [Register]
    panics with the registration error, and so does every mutation on a proxy
    that came from [f], before the real metric is reached. *)
Definition refuses (f : FactoryRef) (w : World) : Prop :=
  (∃ w', Register f w = Panic RegistrationError w')
  ∧ ∀ m, owner (receiver m) = f →
      ∃ w', mutate m w = Panic RegistrationError w' ∧ metrics w' = metrics w.

(** Registries hold pointers to metrics that exist. *)
Definition no_dangling (w : World) : Prop :=
  Forall (λ reg, Forall (λ c, c_ref c < length (metrics w)) (registered reg))
    (registries w).

End Promlazy.

Arguments World R : clear implicits.

(** [s] goes through the gate of the factory at [f]: an explicit
    [Register], or a mutation on a proxy that came from [f]. *)
Definition triggers (f : FactoryRef) (s : Step) : Prop :=
  match s with
  | StepNew _ _ => False
  | StepRegister => True
  | StepMutate m => owner (receiver m) = f
  end.


(** A run of constructor calls, the collectors it creates when the store
    holds [base] metrics before it, and the real metrics behind them. *)
Definition define (kos : list (Kind * Opts)) : list Step :=
  (λ ko, StepNew ko.1 ko.2) <$> kos.

Fixpoint created (base : nat) (kos : list (Kind * Opts)) : list Collector :=
  match kos with
  | [] => []
  | ko :: kos' => mkCollector base ko.2 :: created (S base) kos'
  end.

Definition cells (kos : list (Kind * Opts)) : list Metric :=
  (λ ko, mkMetric ko.1 ko.2 []) <$> kos.

(** ** Programs over several factories *)

Section Programs.
Context {R : Type} {Reg : Registerer R} {Val : OptsValidator}.

(** The factory a step works on: a mutation works on the factory its
    receiver points at, whichever factory the caller holds. *)
Definition subject (g : FactoryRef) (s : Step) : FactoryRef :=
  match s with
  | StepMutate m => owner (receiver m)
  | _ => g
  end.

(** What a program does with the package: make a factory, or take a step
    on one. *)
Inductive Action :=
| ActWith (rr : RegistererRef)
| ActOn (g : FactoryRef) (s : Step).

Definition act (a : Action) : Go (World R) unit :=
  match a with
  | ActWith rr => With rr;; ret tt
  | ActOn g s => step g s
  end.

Fixpoint acts (l : list Action) : Go (World R) unit :=
  match l with
  | [] => ret tt
  | a :: l' => act a;; acts l'
  end.

(** [a] works on another factory than the one at [f]. *)
Definition elsewhere (f : FactoryRef) (a : Action) : Prop :=
  match a with
  | ActWith _ => True
  | ActOn g s => subject g s ≠ f
  end.

(** [a] does not go through the gate of the factory at [f]: it is no
    [Register] on [f] and no mutation on a proxy of [f]. *)
Definition leaves_alone (f : FactoryRef) (a : Action) : Prop :=
  match a with
  | ActWith _ => True
  | ActOn _ (StepNew _ _) => True
  | ActOn g StepRegister => g ≠ f
  | ActOn _ (StepMutate m) => owner (receiver m) ≠ f
  end.

(** Pending metrics exist, and no real metric is pending in two
    factories. *)
Definition pending_exist (w : World R) : Prop :=
  ∀ f c, c ∈ pending f w → c_ref c < length (metrics w).

Definition distinct_batches (w : World R) : Prop :=
  ∀ f g c c', c ∈ pending f w → c' ∈ pending g w → c_ref c = c_ref c' → f = g.

Definition well_formed (w : World R) : Prop :=
  no_dangling w ∧ pending_exist w ∧ distinct_batches w.

(** No pending metric of the factory at [f] is registered. *)
Definition unregistered (f : FactoryRef) (w : World R) : Prop :=
  ∀ c, c ∈ pending f w → ¬ is_registered c w.

End Programs.

(** The calls that the mutations of [ss] make on the real metric at [j], in
    program order. *)
Fixpoint received (j : MetricRef) (ss : list Step) : list Call :=
  match ss with
  | [] => []
  | StepMutate m :: ss' =>
      if decide (c_ref (wrapped (receiver m)) = j)
      then same_call m :: received j ss'
      else received j ss'
  | _ :: ss' => received j ss'
  end.

(** ** The package's test as a concrete run *)

(** A stand-in for the client library's option check: a metric needs a
    name. *)
Definition named_opts : OptsValidator :=
  λ _ o, match Name o with EmptyString => false | String _ _ => true end.

Definition my_metric_1 : Opts := mkOpts "my_metric_1" "a gauge" [].
Definition my_metric_2 : Opts := mkOpts "my_metric_2" "a counter" [].

(** [prometheus.NewRegistry()]: one empty registry, nothing else. *)
Definition new_registry : World Registry := mkWorld [] [] [[]].

(** [batch := With(registry)]. *)
Definition batch : FactoryRef := 0.
Definition with_batch : World Registry :=
  final (With 0 new_registry).

(** [metric1 := batch.NewGauge(...)], [metric2 := batch.NewCounter(...)]. *)
Definition c1 : Collector := mkCollector 0 my_metric_1.
Definition c2 : Collector := mkCollector 1 my_metric_2.
Definition metric1 : lazyGauge := mkLazyGauge c1 batch.
Definition metric2 : lazyCounter := mkLazyCounter c2 batch.
Definition defined : World Registry :=
  final (run (Val := named_opts) batch
           [StepNew KGauge my_metric_1; StepNew KCounter my_metric_2] with_batch).

(** [metric1.Set(42)]. *)
Definition written : World Registry :=
  final (lazyGauge_Set metric1 42%float defined).

(** The four writes the test makes after the first. *)
Definition more_writes : list Step :=
  [StepMutate (Gauge_Inc metric1); StepMutate (Counter_Inc metric2);
   StepMutate (Counter_Add metric2 3%float); StepMutate (Gauge_Dec metric1)].

(** A batch with [my_metric_1] alone. *)
Definition one_defined : World Registry :=
  final (run (Val := named_opts) batch [StepNew KGauge my_metric_1] with_batch).

(** A batch that defines [my_metric_1] twice. *)
Definition clashing : World Registry :=
  final (run (Val := named_opts) batch
           [StepNew KGauge my_metric_1; StepNew KCounter my_metric_1] with_batch).
Definition clashed : World Registry :=
  final (Register batch clashing).

(** Two modules of one program, each with a factory from [New], so both on
    [prometheus.DefaultRegisterer]: module A defines [my_metric_1], module B
    [my_metric_2]. *)
Definition module_a : FactoryRef := 0.
Definition module_b : FactoryRef := 1.
Definition two_modules : list Action :=
  [ActWith DefaultRegisterer; ActWith DefaultRegisterer;
   ActOn module_a (StepNew KGauge my_metric_1);
   ActOn module_b (StepNew KCounter my_metric_2)].

(** Module A is used: a write, and an explicit [Register]. *)
Definition use_a : list Action :=
  [ActOn module_a (StepMutate (Gauge_Set metric1 42%float));
   ActOn module_a StepRegister].

Definition two_defined : World Registry :=
  final (acts (Val := named_opts) two_modules new_registry).



(** Options without a name, which the stand-in check rejects. *)
Definition nameless : Opts := mkOpts EmptyString "no name" [].

(** ** Properties *)

Ltac unfold_go :=
  unfold bind, ret, panic, load_factory, load_registry, store_factory,
    store_registry in *.

Section Properties.
Context {R : Type} {Reg : Registerer R} {Val : OptsValidator}.
Implicit Types (w : World R) (f : FactoryRef) (fac : Factory) (reg : R).
Implicit Types (m : Mutation) (p : Proxy) (c : Collector) (ss : list Step).

(** *** The gate *)

Lemma fire_factories f w fac :
  factories w !! f = Some fac →
  factories (fire f w)
  = <[f := mkFactory (r fac) (mkOnce true) (collectors fac)]> (factories w).
Proof. intros Hf. unfold fire. by rewrite Hf. Qed.

Lemma fire_registries f w : registries (fire f w) = registries w.
Proof. unfold fire. by destruct (factories w !! f). Qed.

Lemma fire_metrics f w : metrics (fire f w) = metrics w.
Proof. unfold fire. by destruct (factories w !! f). Qed.

Lemma fire_fired f w : is_Some (factories w !! f) → fired f (fire f w).
Proof.
  intros [fac Hf]. unfold fired. rewrite (fire_factories _ _ _ Hf).
  exists (mkFactory (r fac) (mkOnce true) (collectors fac)). split; [|done].
  apply list_lookup_insert_eq. by eapply lookup_lt_Some.
Qed.

Lemma fire_pending f g w : pending g (fire f w) = pending g w.
Proof.
  unfold pending, fire. destruct (factories w !! f) as [fac|] eqn:Hf; [|done].
  simpl. destruct (decide (f = g)) as [->|Hne].
  - rewrite list_lookup_insert_eq by (by eapply lookup_lt_Some). by rewrite Hf.
  - by rewrite list_lookup_insert_ne.
Qed.

Lemma init_live f w fac reg :
  factories w !! f = Some fac →
  registries w !! r fac = Some reg →
  init f w
  = match MustRegister reg (collectors fac) with
    | Done reg' => Ok tt (set_registries (<[r fac := reg']> (registries w)) w)
    | Panicked reg' =>
        Panic RegistrationError (set_registries (<[r fac := reg']> (registries w)) w)
    end.
Proof.
  intros Hf Hr. unfold init, Registerer_MustRegister. unfold_go.
  rewrite Hf, Hr. by destruct (MustRegister reg (collectors fac)).
Qed.

Lemma init_no_registry f w fac :
  factories w !! f = Some fac →
  registries w !! r fac = None →
  init f w = Panic NilDereference w.
Proof.
  intros Hf Hr. unfold init, Registerer_MustRegister. unfold_go.
  by rewrite Hf, Hr.
Qed.

Lemma init_frame f w :
  factories (final (init f w)) = factories w
  ∧ metrics (final (init f w)) = metrics w.
Proof.
  unfold init, Registerer_MustRegister. unfold_go.
  destruct (factories w !! f) as [fac|]; [|done].
  destruct (registries w !! r fac) as [reg|]; [|done].
  by destruct (MustRegister reg (collectors fac)).
Qed.

Lemma Register_fired f w : fired f w → Register f w = Ok tt w.
Proof.
  intros (fac & Hf & Hd). unfold Register, initOnce_Do. unfold_go.
  by rewrite Hf, Hd.
Qed.

Lemma Register_unfired f w fac :
  factories w !! f = Some fac →
  done (initOnce fac) = false →
  Register f w
  = match init f w with
    | Ok _ w' => Ok tt (fire f w')
    | Panic e w' => Panic e (fire f w')
    end.
Proof.
  intros Hf Hd. unfold Register, initOnce_Do. unfold_go.
  by rewrite Hf, Hd.
Qed.

Lemma Register_no_factory f w :
  factories w !! f = None → Register f w = Panic NilDereference w.
Proof.
  intros Hf. unfold Register, initOnce_Do. unfold_go. by rewrite Hf.
Qed.

(** Whatever its outcome, a [Register] on a live factory leaves the gate
    fired. *)
Lemma Register_fires f w :
  is_Some (factories w !! f) → fired f (final (Register f w)).
Proof.
  intros [fac Hf]. destruct (done (initOnce fac)) eqn:Hd.
  - rewrite Register_fired; [|by exists fac]. by exists fac.
  - rewrite (Register_unfired _ _ _ Hf Hd).
    pose proof (init_frame f w) as [Hfs _].
    destruct (init f w) as [[] w'|e w']; simpl in *;
      apply fire_fired; rewrite Hfs; eauto.
Qed.

Lemma Register_metrics f w : metrics (final (Register f w)) = metrics w.
Proof.
  destruct (factories w !! f) as [fac|] eqn:Hf;
    [|by rewrite Register_no_factory].
  destruct (done (initOnce fac)) eqn:Hd.
  - rewrite Register_fired; [done|by exists fac].
  - rewrite (Register_unfired _ _ _ Hf Hd).
    pose proof (init_frame f w) as [_ Hms].
    destruct (init f w) as [[] w'|e w']; simpl in *; by rewrite fire_metrics.
Qed.

Lemma Register_pending f g w : pending g (final (Register f w)) = pending g w.
Proof.
  destruct (factories w !! f) as [fac|] eqn:Hf;
    [|by rewrite Register_no_factory].
  destruct (done (initOnce fac)) eqn:Hd.
  - rewrite Register_fired; [done|by exists fac].
  - rewrite (Register_unfired _ _ _ Hf Hd).
    pose proof (init_frame f w) as [Hfs _].
    destruct (init f w) as [[] w'|e w']; simpl in *;
      rewrite fire_pending; unfold pending; by rewrite Hfs.
Qed.

Lemma Register_returns_fired f w w1 :
  Register f w = Ok tt w1 → fired f w1.
Proof.
  intros HR.
  destruct (factories w !! f) as [fac|] eqn:Hf;
    [|by rewrite Register_no_factory in HR].
  pose proof (Register_fires f w (mk_is_Some _ _ Hf)) as Hfd.
  by rewrite HR in Hfd.
Qed.

(** A second [Register] finds the gate fired and returns at once. *)
Lemma Register_twice f w :
  is_Some (factories w !! f) →
  Register f (final (Register f w)) = Ok tt (final (Register f w)).
Proof. intros Hf. by apply Register_fired, Register_fires. Qed.

(** *** The real metrics *)

Lemma Metric_call_live (call : Call) c w (cell : Metric) :
  metrics w !! c_ref c = Some cell →
  Metric_call call c w
  = Ok tt (set_metrics
             (<[c_ref c := mkMetric (kind cell) (opts cell) (calls cell ++ [call])]>
                (metrics w)) w).
Proof. intros Hc. unfold Metric_call. by rewrite Hc. Qed.

Lemma Metric_call_no_metric (call : Call) c w :
  metrics w !! c_ref c = None →
  Metric_call call c w = Panic NilDereference w.
Proof. intros Hc. unfold Metric_call. by rewrite Hc. Qed.

Lemma Metric_call_frame (call : Call) c w :
  factories (final (Metric_call call c w)) = factories w
  ∧ registries (final (Metric_call call c w)) = registries w
  ∧ length (metrics (final (Metric_call call c w))) = length (metrics w).
Proof.
  unfold Metric_call. destruct (metrics w !! c_ref c); simpl; [|done].
  by rewrite length_insert.
Qed.

(** *** Mutating methods of the proxies *)

Lemma mutate_eq m :
  mutate m
  = (Register (owner (receiver m));;
     Metric_call (same_call m) (wrapped (receiver m)))%go.
Proof. by destruct m. Qed.

Lemma mutate_after_Register m w w1 :
  Register (owner (receiver m)) w = Ok tt w1 →
  mutate m w = Metric_call (same_call m) (wrapped (receiver m)) w1.
Proof. intros HR. rewrite mutate_eq. unfold bind. by rewrite HR. Qed.

Lemma mutate_Register_panics m w e w1 :
  Register (owner (receiver m)) w = Panic e w1 →
  mutate m w = Panic e w1.
Proof. intros HR. rewrite mutate_eq. unfold bind. by rewrite HR. Qed.

Lemma mutate_fired m w :
  fired (owner (receiver m)) w →
  mutate m w = Metric_call (same_call m) (wrapped (receiver m)) w.
Proof. intros Hf. by apply mutate_after_Register, Register_fired. Qed.

(** A mutation leaves factories and registries as its [Register] left
    them. *)
Lemma mutate_frame m w :
  factories (final (mutate m w))
  = factories (final (Register (owner (receiver m)) w))
  ∧ registries (final (mutate m w))
    = registries (final (Register (owner (receiver m)) w)).
Proof.
  destruct (Register (owner (receiver m)) w) as [[] w1|e w1] eqn:HR.
  - rewrite (mutate_after_Register _ _ _ HR). simpl.
    pose proof (Metric_call_frame (same_call m) (wrapped (receiver m)) w1)
      as (Hfs & Hrs & _).
    by split.
  - by rewrite (mutate_Register_panics _ _ _ _ HR).
Qed.

Lemma mutate_metrics_length m w :
  length (metrics (final (mutate m w))) = length (metrics w).
Proof.
  pose proof (Register_metrics (owner (receiver m)) w) as HRm.
  destruct (Register (owner (receiver m)) w) as [[] w1|e w1] eqn:HR;
    simpl in HRm.
  - rewrite (mutate_after_Register _ _ _ HR), <- HRm.
    apply Metric_call_frame.
  - rewrite (mutate_Register_panics _ _ _ _ HR). simpl. by rewrite HRm.
Qed.

(** *** Typed constructors *)

Lemma construct_eq (k : Kind) f (o : Opts) w :
  construct k f o w
  = (c ← prometheus_New k o; append_collector f c;; ret (proxy_of k c f))%go w.
Proof.
  destruct k; unfold construct, NewCounter, NewGauge, NewSummary, NewHistogram,
    bind, ret; simpl;
    (destruct (prometheus_New _ o w) as [c w1|e w1]; [|done]);
    by destruct (append_collector f c w1) as [[] w2|e w2].
Qed.

Lemma construct_live (k : Kind) f (o : Opts) w fac :
  factories w !! f = Some fac →
  valid_opts k o = true →
  construct k f o w
  = Ok (proxy_of k (mkCollector (length (metrics w)) o) f)
       (mkWorld (metrics w ++ [mkMetric k o []])
          (<[f := mkFactory (r fac) (initOnce fac)
                    (collectors fac ++ [mkCollector (length (metrics w)) o])]>
             (factories w))
          (registries w)).
Proof.
  intros Hf Hv. rewrite construct_eq.
  unfold prometheus_New, append_collector. unfold_go.
  rewrite Hv. simpl. by rewrite Hf.
Qed.

Lemma construct_invalid (k : Kind) f (o : Opts) w :
  valid_opts k o = false →
  construct k f o w = Panic InvalidOpts w.
Proof.
  intros Hv. rewrite construct_eq. unfold prometheus_New. unfold_go.
  by rewrite Hv.
Qed.

Lemma construct_no_factory (k : Kind) f (o : Opts) w :
  factories w !! f = None →
  valid_opts k o = true →
  construct k f o w
  = Panic NilDereference (set_metrics (metrics w ++ [mkMetric k o []]) w).
Proof.
  intros Hf Hv. rewrite construct_eq.
  unfold prometheus_New, append_collector. unfold_go.
  rewrite Hv. simpl. by rewrite Hf.
Qed.

(** No constructor touches a registry, however it ends. *)
Lemma construct_registries (k : Kind) f (o : Opts) w :
  registries (final (construct k f o w)) = registries w.
Proof.
  destruct (valid_opts k o) eqn:Hv; [|by rewrite construct_invalid].
  destruct (factories w !! f) as [fac|] eqn:Hf.
  - by rewrite (construct_live _ _ _ _ _ Hf Hv).
  - by rewrite construct_no_factory.
Qed.

Lemma construct_metrics_length (k : Kind) f (o : Opts) w :
  length (metrics w) ≤ length (metrics (final (construct k f o w))).
Proof.
  destruct (valid_opts k o) eqn:Hv; [|by rewrite construct_invalid].
  destruct (factories w !! f) as [fac|] eqn:Hf.
  - rewrite (construct_live _ _ _ _ _ Hf Hv). simpl. rewrite length_app. lia.
  - rewrite construct_no_factory by done. simpl. rewrite length_app. lia.
Qed.

Lemma construct_keeps_fired (k : Kind) f g (o : Opts) w :
  fired g w → fired g (final (construct k f o w)).
Proof.
  intros (gfac & Hg & Hd).
  destruct (valid_opts k o) eqn:Hv;
    [|rewrite construct_invalid by done; by exists gfac].
  destruct (factories w !! f) as [fac|] eqn:Hf.
  - rewrite (construct_live _ _ _ _ _ Hf Hv). unfold fired. simpl.
    destruct (decide (f = g)) as [->|Hne].
    + rewrite list_lookup_insert_eq by (by eapply lookup_lt_Some).
      eexists; split; [done|]. simpl. congruence.
    + rewrite list_lookup_insert_ne by done. by exists gfac.
  - rewrite construct_no_factory by done. by exists gfac.
Qed.

(** *** Runs *)

Lemma final_then_ret {A} (act : Go (World R) A) w :
  final ((act;; ret tt)%go w) = final (act w).
Proof. unfold bind, ret. by destruct (act w). Qed.

Lemma run_cons f (s : Step) ss w :
  run f (s :: ss) w
  = match step f s w with
    | Ok _ w' => run f ss w'
    | Panic e w' => Panic e w'
    end.
Proof. reflexivity. Qed.

(** Once the gate of [f] has fired, no step on [f] reaches a registry, and
    the gate stays fired. *)
Lemma step_after_fired f (s : Step) w :
  fired f w → acts_on f s →
  registries (final (step f s w)) = registries w
  ∧ fired f (final (step f s w))
  ∧ length (metrics w) ≤ length (metrics (final (step f s w))).
Proof.
  intros Hfired Hs. destruct s as [k o| |m]; simpl in *.
  - rewrite final_then_ret. split; [apply construct_registries|].
    split; [by apply construct_keeps_fired|apply construct_metrics_length].
  - by rewrite Register_fired.
  - subst f. rewrite mutate_fired by done.
    pose proof (Metric_call_frame (same_call m) (wrapped (receiver m)) w)
      as (Hfs & Hrs & Hlen).
    split; [done|]. split; [|lia].
    unfold fired in *. by rewrite Hfs.
Qed.

Lemma run_after_fired f ss w :
  fired f w → Forall (acts_on f) ss →
  registries (final (run f ss w)) = registries w
  ∧ fired f (final (run f ss w))
  ∧ length (metrics w) ≤ length (metrics (final (run f ss w))).
Proof.
  intros Hfired Hss. revert w Hfired.
  induction Hss as [|s ss Hs _ IH]; intros w Hfired; [by simpl|].
  rewrite run_cons.
  destruct (step_after_fired f s w Hfired Hs) as (Hrs & Hfd & Hlen).
  destruct (step f s w) as [[] w1|e w1]; simpl in *; [|done].
  destruct (IH w1 Hfd) as (Hrs' & Hfd' & Hlen').
  split; [congruence|]. split; [done|lia].
Qed.

(** Steps that only go through a fired gate leave the factories alone as
    well. *)
Lemma step_trigger_after_fired f (s : Step) w :
  fired f w → triggers f s →
  factories (final (step f s w)) = factories w
  ∧ registries (final (step f s w)) = registries w
  ∧ length (metrics (final (step f s w))) = length (metrics w).
Proof.
  intros Hfired Hs. destruct s as [k o| |m]; simpl in *; [done| |].
  - by rewrite Register_fired.
  - subst f. rewrite mutate_fired by done. apply Metric_call_frame.
Qed.

Lemma run_triggers_after_fired f ss w :
  fired f w → Forall (triggers f) ss →
  factories (final (run f ss w)) = factories w
  ∧ registries (final (run f ss w)) = registries w
  ∧ length (metrics (final (run f ss w))) = length (metrics w).
Proof.
  intros Hfired Hss. revert w Hfired.
  induction Hss as [|s ss Hs _ IH]; intros w Hfired; [by simpl|].
  rewrite run_cons.
  destruct (step_trigger_after_fired f s w Hfired Hs) as (Hfs & Hrs & Hlen).
  destruct (step f s w) as [[] w1|e w1]; simpl in *; [|done].
  assert (fired f w1) as Hfired1 by (unfold fired in *; by rewrite Hfs).
  destruct (IH w1 Hfired1) as (Hfs' & Hrs' & Hlen').
  split; [congruence|]. split; congruence.
Qed.

(** A step through the gate that returns leaves the gate fired. *)
Lemma trigger_fires f (s : Step) w w1 :
  triggers f s → step f s w = Ok tt w1 → fired f w1.
Proof.
  intros Hs Hstep. destruct s as [k o| |m]; simpl in *; [done| |].
  - by eapply Register_returns_fired.
  - subst f. destruct (Register (owner (receiver m)) w) as [[] w0|e w0] eqn:HR;
      [|by rewrite (mutate_Register_panics _ _ _ _ HR) in Hstep].
    rewrite (mutate_after_Register _ _ _ HR) in Hstep.
    pose proof (Register_returns_fired _ _ _ HR) as Hfd.
    pose proof (Metric_call_frame (same_call m) (wrapped (receiver m)) w0)
      as (Hfs & _ & _).
    rewrite Hstep in Hfs. simpl in Hfs. unfold fired in *. by rewrite Hfs.
Qed.



(** *** The claims that hold for every registerer *)

(** C3: every mutating method of every proxy kind (counter: Inc, Add;
    gauge: Set, Inc, Dec, Add, Sub, SetToCurrentTime; summary and histogram:
    Observe) first calls [Register] on the factory the proxy came from and
    then the method of the same name, with the same argument, on the real
    metric it wraps.  So after any of them the gate has fired; when
    [Register] panics the call is not forwarded; and when the method returns,
    the wrapped metric has received exactly that one call. *)
Theorem mutation_registers_then_forwards m w :
  mutate m
  = (Register (owner (receiver m));;
     Metric_call (same_call m) (wrapped (receiver m)))%go
  ∧ (is_Some (factories w !! owner (receiver m)) →
     fired (owner (receiver m)) (final (mutate m w)))
  ∧ (∀ e w1, Register (owner (receiver m)) w = Panic e w1 →
             mutate m w = Panic e w1)
  ∧ (∀ w', mutate m w = Ok tt w' →
       ∃ cell,
         metrics w !! c_ref (wrapped (receiver m)) = Some cell
         ∧ metrics w'
           = <[c_ref (wrapped (receiver m)) :=
                 mkMetric (kind cell) (opts cell) (calls cell ++ [same_call m])]>
               (metrics w)).
Proof.
  split; [apply mutate_eq|]. split; [|split].
  - intros Hf. destruct (mutate_frame m w) as [Hfs _].
    pose proof (Register_fires _ w Hf) as Hfd.
    unfold fired in *. by rewrite Hfs.
  - intros e w1. apply mutate_Register_panics.
  - intros w' Hm.
    pose proof (Register_metrics (owner (receiver m)) w) as HRm.
    destruct (Register (owner (receiver m)) w) as [[] w1|e w1] eqn:HR;
      [|by rewrite (mutate_Register_panics _ _ _ _ HR) in Hm].
    rewrite (mutate_after_Register _ _ _ HR) in Hm. simpl in HRm.
    destruct (metrics w1 !! c_ref (wrapped (receiver m))) as [cell|] eqn:Hc;
      [|by rewrite Metric_call_no_metric in Hm].
    rewrite (Metric_call_live _ _ _ _ Hc) in Hm.
    exists cell. rewrite <- HRm. split; [done|]. by simplify_eq.
Qed.

(** C4: [Register] is idempotent.  After a first call through the gate of a
    factory that returned (an explicit [Register] or a mutation on one of its
    proxies), a further [Register] returns at once with the store as it was,
    and any run of further [Register] calls and mutations on the factory's
    proxies leaves every registry, and the factory, exactly as they were:
    nothing is registered again. *)
Theorem Register_idempotent f (first : Step) w w1 :
  triggers f first →
  step f first w = Ok tt w1 →
  Register f w1 = Ok tt w1
  ∧ ∀ ss, Forall (triggers f) ss →
      registries (final (run f ss w1)) = registries w1
      ∧ factories (final (run f ss w1)) = factories w1.
Proof.
  intros Hfirst Hstep.
  pose proof (trigger_fires _ _ _ _ Hfirst Hstep) as Hfired.
  split; [by apply Register_fired|].
  intros ss Hss.
  destruct (run_triggers_after_fired f ss w1 Hfired Hss) as (Hfs & Hrs & _).
  by split.
Qed.

(** C7: an explicit [Register] before any mutation leaves the factories and
    the registries as the first mutation on a proxy would have left them,
    and a mutation after the explicit [Register] ends as the mutation alone
    does; once [Register] has returned, any number of further [Register]
    calls return with the store unchanged. *)
Theorem explicit_Register_matches_first_use m w :
  factories (final (Register (owner (receiver m)) w))
  = factories (final (mutate m w))
  ∧ registries (final (Register (owner (receiver m)) w))
    = registries (final (mutate m w))
  ∧ (Register (owner (receiver m));; mutate m)%go w = mutate m w
  ∧ ∀ w1 n, Register (owner (receiver m)) w = Ok tt w1 →
      run (owner (receiver m)) (replicate n StepRegister) w1 = Ok tt w1.
Proof.
  destruct (mutate_frame m w) as [Hfs Hrs].
  split; [done|]. split; [done|]. split.
  - unfold bind at 1.
    destruct (Register (owner (receiver m)) w) as [[] w1|e w1] eqn:HR.
    + rewrite (mutate_after_Register m w w1 HR).
      by eapply mutate_fired, Register_returns_fired.
    + by rewrite (mutate_Register_panics m w e w1 HR).
  - intros w1 n HR.
    pose proof (Register_returns_fired _ _ _ HR) as Hfd.
    induction n as [|n IH]; [done|].
    simpl replicate. rewrite run_cons. simpl step.
    by rewrite Register_fired.
Qed.

(** C8: the read-only methods a proxy gets from the real metric it embeds
    ([Desc], [Write], [Describe], [Collect]) are that metric's own: they give
    the wrapped metric's answer and leave the store, and with it every
    factory and gate, as it was. *)
Theorem promoted_reads_pass_through (q : Query) p w :
  promoted q p w = Metric_query q (wrapped p) w
  ∧ final (promoted q p w) = w
  ∧ (fired (owner p) (final (promoted q p w)) ↔ fired (owner p) w).
Proof.
  assert (final (promoted q p w) = w) as Hw.
  { destruct p; simpl;
      unfold lazyCounter_promoted, lazyGauge_promoted, lazySummary_promoted,
        lazyHistogram_promoted, Metric_query;
      by destruct (metrics w !! _). }
  split; [by destruct p|]. split; [done|]. by rewrite Hw.
Qed.


(** *** Metrics that are not registered *)

Lemma owner_proxy_of (k : Kind) c f : owner (proxy_of k c f) = f.
Proof. by destruct k. Qed.

Lemma wrapped_proxy_of (k : Kind) c f : wrapped (proxy_of k c f) = c.
Proof. by destruct k. Qed.

Lemma is_registered_registries c w w' :
  registries w' = registries w → is_registered c w' ↔ is_registered c w.
Proof. intros Hrs. unfold is_registered. by rewrite Hrs. Qed.

(** A pointer past the end of the metrics is registered nowhere. *)
Lemma no_dangling_spec w :
  no_dangling w
  ↔ ∀ reg c, reg ∈ registries w → c ∈ registered reg →
             c_ref c < length (metrics w).
Proof.
  unfold no_dangling. rewrite Forall_forall.
  split; intros Hnd reg; specialize (Hnd reg); rewrite Forall_forall in *;
    naive_solver.
Qed.

Lemma fresh_not_registered c w :
  no_dangling w → length (metrics w) ≤ c_ref c → ¬ is_registered c w.
Proof.
  rewrite no_dangling_spec. intros Hnd Hfresh (reg & c' & Hreg & Hc' & Href).
  specialize (Hnd reg c' Hreg Hc'). lia.
Qed.

(** Constructor calls on a live factory, with options the client library
    accepts: all return, no registry changes, and no pending metric becomes
    registered. *)
Lemma define_unregistered f (kos : list (Kind * Opts)) w fac :
  factories w !! f = Some fac →
  Forall (λ ko, valid_opts ko.1 ko.2 = true) kos →
  no_dangling w →
  (∀ c, c ∈ collectors fac → ¬ is_registered c w) →
  ∃ w', run f (define kos) w = Ok tt w'
        ∧ registries w' = registries w
        ∧ metrics w' = metrics w ++ cells kos
        ∧ factories w'
          = <[f := mkFactory (r fac) (initOnce fac)
                     (collectors fac ++ created (length (metrics w)) kos)]>
              (factories w)
        ∧ (∀ c, c ∈ pending f w' → ¬ is_registered c w')
        ∧ no_dangling w'.
Proof.
  intros Hf Hvalid. revert w fac Hf.
  induction Hvalid as [|[k o] kos Hv _ IH]; intros w fac Hf Hnd Hunreg.
  - exists w. simpl. rewrite !app_nil_r.
    split; [done|]. split; [done|]. split; [done|]. split.
    + destruct fac. symmetry. by apply list_insert_id.
    + split; [|done]. unfold pending. by rewrite Hf.
  - simpl in Hv. simpl define. rewrite run_cons. simpl step.
    unfold bind at 1. rewrite (construct_live _ _ _ _ _ Hf Hv). simpl.
    set (c := mkCollector (length (metrics w)) o).
    set (fac1 := mkFactory (r fac) (initOnce fac) (collectors fac ++ [c])).
    set (w1 := mkWorld (metrics w ++ [mkMetric k o []])
                 (<[f := fac1]> (factories w)) (registries w)).
    assert (factories w1 !! f = Some fac1) as Hf1.
    { simpl. apply list_lookup_insert_eq. by eapply lookup_lt_Some. }
    assert (no_dangling w1) as Hnd1.
    { rewrite no_dangling_spec in *. intros reg c' Hreg Hc'. simpl.
      rewrite length_app. simpl. specialize (Hnd reg c' Hreg Hc'). lia. }
    assert (∀ c', c' ∈ collectors fac1 → ¬ is_registered c' w1) as Hunreg1.
    { intros c' Hc'. rewrite (is_registered_registries c' w w1) by done.
      simpl in Hc'. apply elem_of_app in Hc' as [Hc'|Hc'].
      - by apply Hunreg.
      - apply list_elem_of_singleton in Hc' as ->.
        by apply fresh_not_registered. }
    destruct (IH w1 fac1 Hf1 Hnd1 Hunreg1)
      as (w' & Hrun & Hrs & Hms & Hfs & Hpend & Hnd').
    exists w'. split; [done|]. split; [done|]. split; [|split; [|done]].
    + rewrite Hms. simpl. by rewrite <- app_assoc.
    + rewrite Hfs. simpl. rewrite list_insert_insert_eq.
      rewrite length_app. simpl. rewrite Nat.add_1_r.
      by rewrite <- app_assoc.
Qed.

Lemma define_registries f (kos : list (Kind * Opts)) w :
  registries (final (run f (define kos) w)) = registries w.
Proof.
  revert w. induction kos as [|[k o] kos IH]; intros w; [done|].
  simpl define. rewrite run_cons. simpl step.
  pose proof (construct_registries k f o w) as Hrs.
  unfold bind at 1. destruct (construct k f o w) as [p w1|e w1]; simpl in *.
  - by rewrite IH.
  - done.
Qed.

(** C2: on a factory fresh from [With], any run of typed constructor calls
    (NewCounter, NewGauge, NewSummary, NewHistogram) leaves every registry
    as it was, however the run ends.  With options the client library
    accepts each call returns, having created a real metric and appended it
    to the factory's pending collection; the gate stays unfired, and no
    pending metric is registered anywhere. *)
Theorem constructors_do_not_register (rr : RegistererRef)
    (kos : list (Kind * Opts)) w :
  no_dangling w →
  Forall (λ ko, valid_opts ko.1 ko.2 = true) kos →
  ∃ f w0 w',
    With rr w = Ok f w0
    ∧ run f (define kos) w0 = Ok tt w'
    ∧ registries w' = registries w
    ∧ metrics w' = metrics w ++ cells kos
    ∧ pending f w' = created (length (metrics w)) kos
    ∧ ¬ fired f w'
    ∧ (∀ c, c ∈ pending f w' → ¬ is_registered c w')
    ∧ ∀ kos', registries (final (run f (define kos') w0)) = registries w.
Proof.
  intros Hnd Hvalid.
  set (fac := mkFactory rr (mkOnce false) []).
  set (w0 := set_factories (factories w ++ [fac]) w).
  assert (factories w0 !! length (factories w) = Some fac) as Hf.
  { simpl. by apply list_lookup_middle. }
  destruct (define_unregistered (length (factories w)) kos w0 fac Hf Hvalid)
    as (w' & Hrun & Hrs & Hms & Hfs & Hpend & _).
  { done. }
  { intros c Hc. by apply elem_of_nil in Hc. }
  assert (factories w' !! length (factories w)
          = Some (mkFactory rr (mkOnce false)
                    (created (length (metrics w)) kos))) as Hf'.
  { rewrite Hfs. apply list_lookup_insert_eq. by eapply lookup_lt_Some. }
  exists (length (factories w)), w0, w'.
  split; [done|]. split; [done|]. split; [done|]. split; [done|].
  split; [|split; [|split; [done|]]].
  - unfold pending. by rewrite Hf'.
  - intros (fac' & Hfac' & Hd). rewrite Hf' in Hfac'. by simplify_eq.
  - intros kos'. by rewrite define_registries.
Qed.

(** C6: once the gate of a factory has fired, a metric that a typed
    constructor creates is appended to the pending collection and stays
    unregistered: no run of further constructor calls, [Register] calls and
    mutations on the factory's proxies (the new metric's own proxy among
    them) changes a registry. *)
Theorem late_metric_never_registered f w (k : Kind) (o : Opts) :
  fired f w →
  valid_opts k o = true →
  no_dangling w →
  ∃ p w1,
    construct k f o w = Ok p w1
    ∧ owner p = f
    ∧ pending f w1 = pending f w ++ [wrapped p]
    ∧ ∀ ss, Forall (acts_on f) ss →
        registries (final (run f ss w1)) = registries w
        ∧ ¬ is_registered (wrapped p) (final (run f ss w1)).
Proof.
  intros Hfired Hv Hnd.
  pose proof Hfired as (fac & Hf & Hd).
  pose proof (construct_keeps_fired k f f o w Hfired) as Hfired1.
  rewrite (construct_live _ _ _ _ _ Hf Hv) in *. simpl in Hfired1.
  eexists _, _. split; [reflexivity|].
  split; [apply owner_proxy_of|]. rewrite wrapped_proxy_of. split.
  - unfold pending. simpl. rewrite Hf.
    by rewrite list_lookup_insert_eq by (by eapply lookup_lt_Some).
  - intros ss Hss.
    destruct (run_after_fired f ss _ Hfired1 Hss) as (Hrs & _ & _).
    simpl in Hrs. split; [done|].
    rewrite (is_registered_registries _ w) by done.
    by apply fresh_not_registered.
Qed.

End Properties.

Section Collisions.
Implicit Types (seen : list (string * list (string * string))).
Implicit Types (c : Collector) (cs : list Collector).

Lemma conflict_free_spec seen cs :
  conflict_free seen cs = true
  ↔ NoDup (identities cs) ∧ ∀ x, x ∈ identities cs → x ∉ seen.
Proof.
  revert seen. induction cs as [|c cs IH]; intros seen; simpl.
  - split; [|done]. intros _. split; [constructor|].
    intros x Hx. by apply elem_of_nil in Hx.
  - rewrite andb_true_iff, bool_decide_eq_true, IH, NoDup_cons.
    unfold identities. split.
    + intros (Hc & Hnd & Hdisj). split; [split; [|done]|].
      * intros Hin. apply (Hdisj _ Hin). by left.
      * intros x Hx Hseen. apply elem_of_cons in Hx as [->|Hx]; [done|].
        apply (Hdisj x Hx). by right.
    + intros ((Hc & Hnd) & Hdisj). split; [|split; [done|]].
      * apply Hdisj. by left.
      * intros x Hx Hseen. apply elem_of_cons in Hseen as [->|Hseen]; [done|].
        apply (Hdisj x); [by right|done].
Qed.

(** Two metrics of one identity in the batch, or one that is registered
    already, is a collision. *)
Lemma collision_not_free seen cs :
  ¬ NoDup (identities cs)
  ∨ (∃ c, c ∈ cs ∧ identity (c_opts c) ∈ seen) →
  conflict_free seen cs = false.
Proof.
  intros Hbad. apply not_true_iff_false. rewrite conflict_free_spec.
  intros [Hnd Hdisj]. destruct Hbad as [Hdup|(c & Hc & Hseen)]; [done|].
  apply (Hdisj (identity (c_opts c))); [|done].
  unfold identities. apply list_elem_of_fmap. by exists c.
Qed.

(** Appending a metric whose identity is taken makes a collision. *)
Lemma conflict_free_taken seen cs c :
  identity (c_opts c) ∈ seen ++ identities cs →
  conflict_free seen (cs ++ [c]) = false.
Proof.
  intros Hin. apply collision_not_free.
  apply elem_of_app in Hin as [Hin|Hin].
  - right. exists c. split; [|done]. apply elem_of_app. right. by left.
  - left. unfold identities in *. rewrite fmap_app. simpl.
    intros Hnd. apply NoDup_app in Hnd as (_ & Hdisj & _).
    apply (Hdisj _ Hin). by left.
Qed.

Lemma conflict_free_seen seen seen' cs :
  (∀ x, x ∈ seen ↔ x ∈ seen') →
  conflict_free seen cs = conflict_free seen' cs.
Proof.
  revert seen seen'. induction cs as [|c cs IH]; intros seen seen' Heq; [done|].
  simpl. f_equal.
  - apply bool_decide_ext. by rewrite Heq.
  - apply IH. intros x. rewrite !elem_of_cons. by rewrite Heq.
Qed.

Lemma identities_snoc (reg : list Collector) c x :
  x ∈ identity (c_opts c) :: identities reg ↔ x ∈ identities (reg ++ [c]).
Proof.
  unfold identities. rewrite fmap_app. simpl.
  rewrite elem_of_app, list_elem_of_singleton, elem_of_cons. tauto.
Qed.

Lemma Stepwise_accepts (reg cs : list Collector) :
  conflict_free (identities reg) cs = true →
  Stepwise_MustRegister reg cs = Done (mkStepwise (reg ++ cs)).
Proof.
  revert reg. induction cs as [|c cs IH]; intros reg Hfree; simpl.
  - by rewrite app_nil_r.
  - simpl in Hfree. apply andb_true_iff in Hfree as [Hc Hfree].
    apply bool_decide_eq_true in Hc.
    rewrite bool_decide_eq_false_2 by done.
    rewrite IH; [by rewrite <- app_assoc|].
    rewrite <- Hfree. apply conflict_free_seen. intros x.
    symmetry. apply identities_snoc.
Qed.

Lemma Stepwise_rejects (reg cs : list Collector) :
  conflict_free (identities reg) cs = false →
  ∃ reg', Stepwise_MustRegister reg cs = Panicked reg'.
Proof.
  revert reg. induction cs as [|c cs IH]; intros reg Hfree; simpl in *; [done|].
  destruct (decide (identity (c_opts c) ∈ identities reg)) as [Hc|Hc].
  { rewrite bool_decide_eq_true_2 by done. by eexists. }
  rewrite bool_decide_eq_false_2 by done.
  apply andb_false_iff in Hfree as [Hfree|Hfree].
  - apply bool_decide_eq_false in Hfree. by destruct Hfree.
  - apply IH. rewrite <- Hfree. apply conflict_free_seen. intros x.
    symmetry. apply identities_snoc.
Qed.

End Collisions.

(** Both registries keep the contract. *)
#[global] Instance Registry_laws : RegistererLaws Registry.
Proof.
  split.
  - intros reg cs Hfree. simpl in *. unfold Registry_MustRegister.
    rewrite Hfree. by exists (reg ++ cs).
  - intros reg cs Hfree. simpl in *. unfold Registry_MustRegister.
    rewrite Hfree. by exists reg.
Qed.

#[global] Instance Stepwise_laws : RegistererLaws Stepwise.
Proof.
  split.
  - intros [reg] cs Hfree. simpl in *.
    rewrite (Stepwise_accepts _ _ Hfree). by eexists.
  - intros [reg] cs Hfree. simpl in *. by apply Stepwise_rejects.
Qed.

(** *** The claims that rest on the registry's contract *)

Section Contract.
Context {R : Type} {Reg : Registerer R} {Val : OptsValidator}.
Context {Laws : RegistererLaws R}.
Implicit Types (w : World R) (f : FactoryRef) (fac : Factory) (reg : R).
Implicit Types (m : Mutation) (p : Proxy) (c : Collector).


(** The first [Register] of a batch with a collision. *)
Lemma Register_rejected f w fac reg :
  factories w !! f = Some fac →
  done (initOnce fac) = false →
  registries w !! r fac = Some reg →
  conflict_free (identities (registered reg)) (collectors fac) = false →
  refuses f w.
Proof.
  intros Hf Hd Hr Hfree.
  destruct (MustRegister_reject reg (collectors fac) Hfree) as (reg' & HM).
  assert (∃ w', Register f w = Panic RegistrationError w') as [w' HR].
  { rewrite (Register_unfired _ _ _ Hf Hd), (init_live _ _ _ _ Hf Hr).
    rewrite HM. by eexists. }
  split; [by exists w'|].
  intros m Hown. subst f. exists w'.
  split; [by apply mutate_Register_panics|].
  pose proof (Register_metrics (owner (receiver m)) w) as HRm.
  by rewrite HR in HRm.
Qed.


(** C5: on a factory whose gate has not fired, a batch that holds two
    metrics of one identity, or a metric whose identity is registered with
    the registry already, makes the first [Register] and the first mutation
    on any proxy of the batch panic with the registration error, the real
    metric untouched.  The constructors raise nothing: a typed constructor
    with options the client library accepts returns also when the identity
    it is given is taken, and the panic then comes at the first use. *)
Theorem conflict_panics_at_first_use f w fac reg :
  factories w !! f = Some fac →
  done (initOnce fac) = false →
  registries w !! r fac = Some reg →
  (¬ NoDup (identities (collectors fac))
   ∨ (∃ c, c ∈ collectors fac
           ∧ identity (c_opts c) ∈ identities (registered reg)) →
   refuses f w)
  ∧ ∀ (k : Kind) (o : Opts),
      valid_opts k o = true →
      ∃ p w1,
        construct k f o w = Ok p w1
        ∧ owner p = f
        ∧ (identity o ∈ identities (registered reg)
                          ++ identities (collectors fac) →
           refuses f w1).
Proof.
  intros Hf Hd Hr. split.
  - intros Hbad. apply (Register_rejected _ _ _ _ Hf Hd Hr).
    by apply collision_not_free.
  - intros k o Hv. rewrite (construct_live _ _ _ _ _ Hf Hv).
    eexists _, _. split; [reflexivity|]. split; [apply owner_proxy_of|].
    intros Htaken.
    eapply Register_rejected.
    + simpl. apply list_lookup_insert_eq. by eapply lookup_lt_Some.
    + done.
    + done.
    + simpl. by apply conflict_free_taken.
Qed.


End Contract.

(** ** Beyond one factory: how the operations compose *)

Section Beyond.
Context {R : Type} {Reg : Registerer R} {Val : OptsValidator}.
Implicit Types (w : World R) (f g : FactoryRef) (fac : Factory) (reg : R).
Implicit Types (m : Mutation) (p : Proxy) (c : Collector) (ss : list Step).
Implicit Types (a : Action) (l : list Action).

(** *** What a step leaves alone *)

Lemma Register_other f g w :
  g ≠ f → factories (final (Register f w)) !! g = factories w !! g.
Proof.
  intros Hne.
  destruct (factories w !! f) as [fac|] eqn:Hf;
    [|by rewrite Register_no_factory].
  destruct (done (initOnce fac)) eqn:Hd.
  - rewrite Register_fired; [done|by exists fac].
  - rewrite (Register_unfired _ _ _ Hf Hd).
    pose proof (init_frame f w) as [Hfs _].
    destruct (init f w) as [[] w1|e w1]; simpl in *;
      rewrite (fire_factories f w1 fac) by (by rewrite Hfs);
      rewrite list_lookup_insert_ne by done; by rewrite Hfs.
Qed.

Lemma mutate_other m g w :
  g ≠ owner (receiver m) →
  factories (final (mutate m w)) !! g = factories w !! g.
Proof.
  intros Hne. destruct (mutate_frame m w) as [Hfs _].
  rewrite Hfs. by apply Register_other.
Qed.

Lemma construct_other (k : Kind) f g (o : Opts) w :
  g ≠ f → factories (final (construct k f o w)) !! g = factories w !! g.
Proof.
  intros Hne.
  destruct (valid_opts k o) eqn:Hv; [|by rewrite construct_invalid].
  destruct (factories w !! f) as [fac|] eqn:Hf.
  - rewrite (construct_live _ _ _ _ _ Hf Hv). simpl.
    by rewrite list_lookup_insert_ne.
  - by rewrite construct_no_factory.
Qed.

Lemma step_other g (s : Step) f w :
  subject g s ≠ f →
  factories (final (step g s w)) !! f = factories w !! f.
Proof.
  intros Hne. destruct s as [k o| |m]; simpl in *.
  - rewrite final_then_ret. by apply construct_other.
  - by apply Register_other.
  - by apply mutate_other.
Qed.

Lemma With_other (rr : RegistererRef) f w :
  is_Some (factories w !! f) →
  factories (final (With rr w)) !! f = factories w !! f.
Proof.
  intros Hf. simpl. apply lookup_app_l. by apply lookup_lt_is_Some.
Qed.

Lemma act_elsewhere f a w :
  elsewhere f a → is_Some (factories w !! f) →
  factories (final (act a w)) !! f = factories w !! f.
Proof.
  intros Ha Hf. destruct a as [rr|g s].
  - unfold act. rewrite final_then_ret. by apply With_other.
  - by apply step_other.
Qed.

Lemma acts_cons a l w :
  acts (a :: l) w
  = match act a w with
    | Ok _ w1 => acts l w1
    | Panic e w1 => Panic e w1
    end.
Proof. reflexivity. Qed.

(** X1: factories are independent.  Whatever a program does with other
    factories and their proxies (making factories, constructing metrics,
    registering, writing), a factory it does not work on keeps its gate, its
    registerer and its pending collection, also when the program panics. *)
Theorem factories_are_independent f l w :
  is_Some (factories w !! f) →
  Forall (elsewhere f) l →
  factories (final (acts l w)) !! f = factories w !! f.
Proof.
  intros Hf Hl. revert w Hf.
  induction Hl as [|a l Ha _ IH]; intros w Hf; [done|].
  rewrite acts_cons.
  pose proof (act_elsewhere f a w Ha Hf) as Hstep.
  destruct (act a w) as [[] w1|e w1]; simpl in *; [|done].
  rewrite IH by (by rewrite Hstep). done.
Qed.

(** *** The gate *)

Lemma construct_fired_iff (k : Kind) f g (o : Opts) w :
  fired g (final (construct k f o w)) ↔ fired g w.
Proof.
  split; [|apply construct_keeps_fired].
  destruct (valid_opts k o) eqn:Hv; [|by rewrite construct_invalid].
  destruct (factories w !! f) as [fac|] eqn:Hf;
    [|by rewrite construct_no_factory].
  rewrite (construct_live _ _ _ _ _ Hf Hv). unfold fired. simpl.
  destruct (decide (f = g)) as [->|Hne].
  - rewrite list_lookup_insert_eq by (by eapply lookup_lt_Some).
    intros (fac' & Hfac' & Hd). simplify_eq. by exists fac.
  - by rewrite list_lookup_insert_ne.
Qed.

Lemma Register_keeps_fired f g w :
  fired g w → fired g (final (Register f w)).
Proof.
  intros Hg. destruct (decide (g = f)) as [->|Hne].
  - by rewrite Register_fired.
  - unfold fired in *. by rewrite Register_other.
Qed.

Lemma step_keeps_fired g (s : Step) f w :
  fired f w → fired f (final (step g s w)).
Proof.
  intros Hf. destruct s as [k o| |m]; simpl.
  - rewrite final_then_ret. by apply construct_keeps_fired.
  - by apply Register_keeps_fired.
  - destruct (mutate_frame m w) as [Hfs _].
    pose proof (Register_keeps_fired (owner (receiver m)) f w Hf) as Hfd.
    unfold fired in *. by rewrite Hfs.
Qed.

(** X2: a gate never goes back, and only the factory's own triggers fire
    it.  A step on any factory leaves a fired gate fired; and when a step
    finds the gate of [f] unfired and leaves it fired, the step is a
    [Register] on [f] or a mutation on a proxy of [f], never a
    constructor. *)
Theorem gate_fires_once_by_own_trigger f g (s : Step) w :
  (fired f w → fired f (final (step g s w)))
  ∧ (¬ fired f w → fired f (final (step g s w)) →
     subject g s = f ∧ ∀ k o, s ≠ StepNew k o).
Proof.
  split; [apply step_keeps_fired|].
  intros Hnot Hafter. split.
  - destruct (decide (subject g s = f)) as [|Hne]; [done|].
    exfalso. apply Hnot. unfold fired in *. by rewrite <- (step_other g s f w).
  - intros k o ->. simpl in Hafter. rewrite final_then_ret in Hafter.
    by apply Hnot, (construct_fired_iff k g f o w).
Qed.


(** *** What the real metrics receive *)

Lemma construct_returns (k : Kind) f (o : Opts) w p w1 :
  construct k f o w = Ok p w1 →
  ∃ fac,
    factories w !! f = Some fac
    ∧ valid_opts k o = true
    ∧ p = proxy_of k (mkCollector (length (metrics w)) o) f
    ∧ w1 = mkWorld (metrics w ++ [mkMetric k o []])
             (<[f := mkFactory (r fac) (initOnce fac)
                       (collectors fac ++ [mkCollector (length (metrics w)) o])]>
                (factories w))
             (registries w).
Proof.
  intros Hc.
  destruct (valid_opts k o) eqn:Hv; [|by rewrite construct_invalid in Hc].
  destruct (factories w !! f) as [fac|] eqn:Hf;
    [|by rewrite construct_no_factory in Hc].
  rewrite (construct_live _ _ _ _ _ Hf Hv) in Hc.
  exists fac. by simplify_eq.
Qed.

Lemma mutate_returns m w w1 :
  mutate m w = Ok tt w1 →
  ∃ cell,
    metrics w !! c_ref (wrapped (receiver m)) = Some cell
    ∧ metrics w1
      = <[c_ref (wrapped (receiver m)) :=
            mkMetric (kind cell) (opts cell) (calls cell ++ [same_call m])]>
          (metrics w).
Proof.
  intros Hm.
  pose proof (Register_metrics (owner (receiver m)) w) as HRm.
  destruct (Register (owner (receiver m)) w) as [[] w0|e w0] eqn:HR;
    [|by rewrite (mutate_Register_panics _ _ _ _ HR) in Hm].
  rewrite (mutate_after_Register _ _ _ HR) in Hm. simpl in HRm.
  destruct (metrics w0 !! c_ref (wrapped (receiver m))) as [cell|] eqn:Hc;
    [|by rewrite Metric_call_no_metric in Hm].
  rewrite (Metric_call_live _ _ _ _ Hc) in Hm.
  exists cell. rewrite <- HRm. split; [done|]. by simplify_eq.
Qed.

Lemma step_received f (s : Step) w w1 (j : MetricRef) (cell : Metric) :
  step f s w = Ok tt w1 →
  metrics w !! j = Some cell →
  metrics w1 !! j
  = Some (mkMetric (kind cell) (opts cell) (calls cell ++ received j [s])).
Proof.
  intros Hstep Hj. destruct s as [k o| |m]; simpl in *.
  - unfold bind, ret in Hstep.
    destruct (construct k f o w) as [p w0|e w0] eqn:Hc; [|done].
    simplify_eq.
    destruct (construct_returns _ _ _ _ _ _ Hc) as (fac & _ & _ & _ & ->).
    simpl. rewrite lookup_app_l by (by eapply lookup_lt_Some).
    rewrite app_nil_r. by destruct cell.
  - pose proof (Register_metrics f w) as HRm. rewrite Hstep in HRm.
    simpl in HRm. rewrite HRm, app_nil_r. by destruct cell.
  - destruct (mutate_returns _ _ _ Hstep) as (cell0 & Hcell0 & ->).
    destruct (decide (c_ref (wrapped (receiver m)) = j)) as [<-|Hne].
    + rewrite list_lookup_insert_eq by (by eapply lookup_lt_Some).
      by simplify_eq.
    + rewrite list_lookup_insert_ne by done.
      rewrite app_nil_r. by destruct cell.
Qed.

(** X4: the proxies are transparent for the values.  When a run of
    constructor calls, [Register] calls and mutations returns, every real
    metric that existed before it has received exactly the calls that the
    run's mutations made on proxies wrapping it, with their arguments, in
    program order, and nothing else about it has changed. *)
Theorem writes_arrive_in_order f ss w w' (j : MetricRef) (cell : Metric) :
  run f ss w = Ok tt w' →
  metrics w !! j = Some cell →
  metrics w' !! j
  = Some (mkMetric (kind cell) (opts cell) (calls cell ++ received j ss)).
Proof.
  revert w cell. induction ss as [|s ss IH]; intros w cell Hrun Hj.
  - simpl in *. unfold ret in Hrun. simplify_eq.
    rewrite app_nil_r. by destruct cell.
  - rewrite run_cons in Hrun.
    destruct (step f s w) as [[] w1|e w1] eqn:Hstep; [|done].
    pose proof (step_received f s w w1 j cell Hstep Hj) as Hj1.
    rewrite (IH _ _ Hrun Hj1). simpl. f_equal. f_equal.
    rewrite <- app_assoc. f_equal.
    destruct s as [k o| |m]; simpl; [done|done|].
    by destruct (decide (c_ref (wrapped (receiver m)) = j)).
Qed.

(** X5: a constructor that panics adds nothing to a batch.  It panics
    either because the client library rejects the options, and then the
    store is as it was, or because the factory pointer points at nothing,
    and then the real metric exists but is pending nowhere.  Either way no
    factory and no registry has changed. *)
Theorem failed_constructor_adds_nothing (k : Kind) f (o : Opts) w e w' :
  construct k f o w = Panic e w' →
  factories w' = factories w
  ∧ registries w' = registries w
  ∧ (e = InvalidOpts ∧ valid_opts k o = false ∧ w' = w
     ∨ e = NilDereference ∧ factories w !! f = None
       ∧ metrics w' = metrics w ++ [mkMetric k o []]).
Proof.
  intros Hc.
  destruct (valid_opts k o) eqn:Hv.
  - destruct (factories w !! f) as [fac|] eqn:Hf.
    + by rewrite (construct_live _ _ _ _ _ Hf Hv) in Hc.
    + rewrite (construct_no_factory _ _ _ _ Hf Hv) in Hc. simplify_eq.
      split; [done|]. split; [done|]. by right.
  - rewrite (construct_invalid _ _ _ _ Hv) in Hc. simplify_eq.
    split; [done|]. split; [done|]. by left.
Qed.

End Beyond.

Section BeyondContract.
Context {R : Type} {Reg : Registerer R} {Val : OptsValidator}.
Context {Laws : RegistererLaws R}.
Implicit Types (w : World R) (f g : FactoryRef) (fac : Factory) (reg : R).
Implicit Types (m : Mutation) (p : Proxy) (c : Collector) (ss : list Step).
Implicit Types (a : Action) (l : list Action).

(** *** Pending collections *)

Lemma With_pending (rr : RegistererRef) g w :
  pending g (final (With rr w)) = pending g w.
Proof.
  unfold pending. simpl.
  destruct (decide (g < length (factories w))) as [Hlt|Hge].
  - by rewrite lookup_app_l.
  - rewrite (lookup_ge_None_2 (factories w)) by lia.
    rewrite lookup_app_r by lia.
    by destruct (g - length (factories w)) as [|[|n]].
Qed.

Lemma mutate_pending m g w : pending g (final (mutate m w)) = pending g w.
Proof.
  destruct (mutate_frame m w) as [Hfs _].
  rewrite <- (Register_pending (owner (receiver m)) g w).
  unfold pending. by rewrite Hfs.
Qed.

Lemma construct_pending (k : Kind) f g (o : Opts) w p w1 :
  construct k f o w = Ok p w1 →
  pending g w1 = pending g w
  ∨ (g = f ∧ c_ref (wrapped p) = length (metrics w)
     ∧ pending g w1 = pending g w ++ [wrapped p]).
Proof.
  intros Hc.
  destruct (construct_returns _ _ _ _ _ _ Hc) as (fac & Hf & _ & -> & ->).
  rewrite wrapped_proxy_of. unfold pending. simpl.
  destruct (decide (g = f)) as [->|Hne].
  - right. rewrite Hf.
    by rewrite list_lookup_insert_eq by (by eapply lookup_lt_Some).
  - left. by rewrite list_lookup_insert_ne.
Qed.

Lemma elem_of_insert_inv {A} (xs : list A) (i : nat) (x y : A) :
  y ∈ <[i := x]> xs → y = x ∨ y ∈ xs.
Proof.
  intros [j Hj]%list_elem_of_lookup.
  apply list_lookup_insert_Some in Hj as [(_ & -> & _)|[_ Hj]]; [by left|].
  right. apply list_elem_of_lookup. eauto.
Qed.

(** A [Register] that returns either found the gate fired, or registered
    the whole pending collection beside what the registry held. *)
Lemma Register_returns f w w1 :
  Register f w = Ok tt w1 →
  w1 = w
  ∨ ∃ fac reg reg',
      factories w !! f = Some fac
      ∧ registries w !! r fac = Some reg
      ∧ registered reg' ≡ₚ registered reg ++ collectors fac
      ∧ w1 = fire f (set_registries (<[r fac := reg']> (registries w)) w).
Proof.
  intros HR.
  destruct (factories w !! f) as [fac|] eqn:Hf;
    [|by rewrite Register_no_factory in HR].
  destruct (done (initOnce fac)) eqn:Hd.
  { rewrite Register_fired in HR by (by exists fac). left. by simplify_eq. }
  right. rewrite (Register_unfired _ _ _ Hf Hd) in HR.
  destruct (registries w !! r fac) as [reg|] eqn:Hr;
    [|by rewrite (init_no_registry _ _ _ Hf Hr) in HR].
  rewrite (init_live _ _ _ _ Hf Hr) in HR.
  destruct (conflict_free (identities (registered reg)) (collectors fac))
    eqn:Hfree.
  - destruct (MustRegister_accept reg _ Hfree) as (reg' & HM & Hperm).
    rewrite HM in HR. exists fac, reg, reg'. by simplify_eq.
  - destruct (MustRegister_reject reg _ Hfree) as (reg' & HM).
    by rewrite HM in HR.
Qed.

Lemma mutate_splits m w w1 :
  mutate m w = Ok tt w1 →
  ∃ w0, Register (owner (receiver m)) w = Ok tt w0
        ∧ factories w1 = factories w0
        ∧ registries w1 = registries w0
        ∧ length (metrics w1) = length (metrics w0).
Proof.
  intros Hm.
  destruct (Register (owner (receiver m)) w) as [[] w0|e w0] eqn:HR;
    [|by rewrite (mutate_Register_panics _ _ _ _ HR) in Hm].
  rewrite (mutate_after_Register _ _ _ HR) in Hm.
  pose proof (Metric_call_frame (same_call m) (wrapped (receiver m)) w0) as H.
  rewrite Hm in H. by exists w0.
Qed.

(** *** Stores without dangling or shared metrics *)

Lemma well_formed_same w w' :
  factories w' = factories w →
  registries w' = registries w →
  length (metrics w') = length (metrics w) →
  well_formed w → well_formed w'.
Proof.
  intros Hfs Hrs Hlen (Hnd & Hpe & Hdb).
  unfold well_formed, no_dangling, pending_exist, distinct_batches, pending
    in *.
  rewrite Hfs, Hrs, Hlen. done.
Qed.

Lemma unregistered_same f w w' :
  factories w' = factories w →
  registries w' = registries w →
  unregistered f w → unregistered f w'.
Proof.
  intros Hfs Hrs Hun c. unfold unregistered, pending, is_registered in *.
  rewrite Hfs, Hrs. apply Hun.
Qed.

Lemma Register_well_formed f w w1 :
  well_formed w → Register f w = Ok tt w1 → well_formed w1.
Proof.
  intros Hwf HR.
  destruct (Register_returns _ _ _ HR)
    as [->|(fac & reg & reg' & Hf & Hr & Hperm & ->)]; [done|].
  destruct Hwf as (Hnd & Hpe & Hdb).
  split; [|split].
  - unfold no_dangling in *. rewrite fire_registries, fire_metrics. simpl.
    apply Forall_insert; [done|].
    rewrite Hperm. apply Forall_app. split.
    + eapply Forall_lookup_1 in Hnd; [|exact Hr]. done.
    + apply Forall_forall. intros c Hc. apply (Hpe f).
      unfold pending. by rewrite Hf.
  - intros g c. rewrite fire_pending, fire_metrics. apply Hpe.
  - intros g g' c c'. rewrite !fire_pending. apply Hdb.
Qed.

Lemma act_well_formed a w w1 :
  well_formed w → act a w = Ok tt w1 → well_formed w1.
Proof.
  intros Hwf Hact. destruct a as [rr|g [k o| |m]].
  - assert (w1 = final (With rr w)) as ->.
    { unfold act, bind, ret in Hact. simpl in Hact. by simplify_eq. }
    destruct Hwf as (Hnd & Hpe & Hdb). split; [done|]. split.
    + intros f c. rewrite With_pending. apply Hpe.
    + intros f f' c c'. rewrite !With_pending. apply Hdb.
  - simpl in Hact. unfold bind, ret in Hact.
    destruct (construct k g o w) as [p w0|e w0] eqn:Hc; [|done].
    simplify_eq. destruct Hwf as (Hnd & Hpe & Hdb).
    assert (length (metrics w1) = S (length (metrics w))
            ∧ registries w1 = registries w) as [Hlen Hrs].
    { destruct (construct_returns _ _ _ _ _ _ Hc) as (fac & _ & _ & _ & ->).
      simpl. rewrite length_app. simpl. split; [lia|done]. }
    assert (∀ f c, c ∈ pending f w1 →
              c ∈ pending f w ∨ (f = g ∧ c_ref c = length (metrics w)))
      as Hold.
    { intros f c Hin.
      destruct (construct_pending k g f o w p w1 Hc)
        as [Heq|(-> & Href & Heq)]; rewrite Heq in Hin; [by left|].
      apply elem_of_app in Hin as [Hin|Hin]; [by left|].
      apply list_elem_of_singleton in Hin as ->. by right. }
    split; [|split].
    + unfold no_dangling in *. rewrite Hrs, Hlen.
      eapply Forall_impl; [exact Hnd|]. intros reg Hreg.
      eapply Forall_impl; [exact Hreg|]. simpl. intros c. lia.
    + intros f c Hin. rewrite Hlen.
      destruct (Hold f c Hin) as [Hin'|[_ Href]]; [|lia].
      specialize (Hpe f c Hin'). lia.
    + intros f f' c c' Hin Hin' Href.
      destruct (Hold f c Hin) as [Hc1|[-> Hc1]];
        destruct (Hold f' c' Hin') as [Hc2|[-> Hc2]].
      * by apply (Hdb f f' c c').
      * specialize (Hpe f c Hc1). lia.
      * specialize (Hpe f' c' Hc2). lia.
      * done.
  - by eapply Register_well_formed.
  - simpl in Hact.
    destruct (mutate_splits _ _ _ Hact) as (w0 & HR & Hfs & Hrs & Hlen).
    eapply well_formed_same; [done..|]. by eapply Register_well_formed.
Qed.

(** X6: programs keep the store well formed.  Along any program that
    returns (making factories, constructing metrics, registering and
    writing, on any factories), every registered and every pending collector
    points at a real metric that exists, and no real metric is pending in
    two factories. *)
Theorem programs_keep_store_well_formed l w w' :
  well_formed w → acts l w = Ok tt w' → well_formed w'.
Proof.
  revert w. induction l as [|a l IH]; intros w Hwf Hrun.
  - simpl in Hrun. unfold ret in Hrun. by simplify_eq.
  - rewrite acts_cons in Hrun.
    destruct (act a w) as [[] w1|e w1] eqn:Hact; [|done].
    eapply IH; [|done]. by eapply act_well_formed.
Qed.

(** *** A factory nobody has used *)

Lemma With_fired_iff (rr : RegistererRef) f w :
  fired f (final (With rr w)) ↔ fired f w.
Proof.
  unfold fired. simpl.
  destruct (decide (f < length (factories w))) as [Hlt|Hge].
  - by rewrite lookup_app_l.
  - rewrite (lookup_ge_None_2 (factories w)) by lia.
    rewrite lookup_app_r by lia.
    destruct (f - length (factories w)) as [|[|n]]; simpl;
      split; intros (fac & Hf & Hd); by simplify_eq.
Qed.

Lemma act_keeps_unfired f a w :
  leaves_alone f a → ¬ fired f w → ¬ fired f (final (act a w)).
Proof.
  intros Ha Hnot Hafter. apply Hnot. destruct a as [rr|g [k o| |m]].
  - unfold act in Hafter. rewrite final_then_ret in Hafter.
    by apply (With_fired_iff rr).
  - simpl in Hafter. rewrite final_then_ret in Hafter.
    by apply (construct_fired_iff k g f o w).
  - simpl in *. unfold fired in *. by rewrite <- (Register_other g f w).
  - simpl in *. unfold fired in *.
    by rewrite <- (mutate_other m f w).
Qed.

Lemma Register_unregistered f g w w1 :
  well_formed w → unregistered f w → g ≠ f →
  Register g w = Ok tt w1 → unregistered f w1.
Proof.
  intros (Hnd & Hpe & Hdb) Hun Hne HR.
  destruct (Register_returns _ _ _ HR)
    as [->|(fac & reg & reg' & Hg & Hr & Hperm & ->)]; [done|].
  intros c Hc (reg'' & c' & Hreg & Hc' & Href).
  rewrite fire_pending in Hc. rewrite fire_registries in Hreg.
  simpl in Hc, Hreg.
  apply elem_of_insert_inv in Hreg as [->|Hreg].
  - rewrite Hperm in Hc'. apply elem_of_app in Hc' as [Hc'|Hc'].
    + apply (Hun c Hc). exists reg, c'. split; [|done].
      apply list_elem_of_lookup. eauto.
    + apply Hne. apply (Hdb g f c' c); [|done..].
      unfold pending. by rewrite Hg.
  - apply (Hun c Hc). by exists reg'', c'.
Qed.

Lemma act_leaves_unregistered f a w w1 :
  well_formed w → unregistered f w → leaves_alone f a →
  act a w = Ok tt w1 → unregistered f w1.
Proof.
  intros Hwf Hun Ha Hact. destruct a as [rr|g [k o| |m]].
  - assert (w1 = final (With rr w)) as ->.
    { unfold act, bind, ret in Hact. simpl in Hact. by simplify_eq. }
    intros c. rewrite With_pending. apply Hun.
  - simpl in Hact. unfold bind, ret in Hact.
    destruct (construct k g o w) as [p w0|e w0] eqn:Hc; [|done].
    simplify_eq.
    assert (registries w1 = registries w) as Hrs.
    { by destruct (construct_returns _ _ _ _ _ _ Hc) as (? & _ & _ & _ & ->). }
    intros c Hin. rewrite (is_registered_registries c w w1 Hrs).
    destruct (construct_pending k g f o w p w1 Hc)
      as [Heq|(-> & Href & Heq)]; rewrite Heq in Hin; [by apply Hun|].
    apply elem_of_app in Hin as [Hin|Hin]; [by apply Hun|].
    apply list_elem_of_singleton in Hin as ->.
    apply fresh_not_registered; [apply Hwf|lia].
  - by eapply (Register_unregistered f g).
  - simpl in *.
    destruct (mutate_splits _ _ _ Hact) as (w0 & HR & Hfs & Hrs & _).
    eapply unregistered_same; [done..|].
    by eapply (Register_unregistered f (owner (receiver m))).
Qed.

(** X7: the package's point.  A factory that nobody has triggered exports
    nothing, whatever the rest of the program does: along any program that
    returns and contains no [Register] on the factory and no mutation on one
    of its proxies (it may construct metrics on it, and do anything with
    other factories, also on the same registry), the factory's gate stays
    unfired and none of its pending metrics is registered anywhere. *)
Theorem untriggered_factory_exports_nothing f l w w' :
  well_formed w →
  unregistered f w →
  ¬ fired f w →
  Forall (leaves_alone f) l →
  acts l w = Ok tt w' →
  unregistered f w' ∧ ¬ fired f w'.
Proof.
  intros Hwf Hun Hnot Hl. revert w Hwf Hun Hnot.
  induction Hl as [|a l Ha _ IH]; intros w Hwf Hun Hnot Hrun.
  - simpl in Hrun. unfold ret in Hrun. by simplify_eq.
  - rewrite acts_cons in Hrun.
    pose proof (act_keeps_unfired f a w Ha Hnot) as Hnot1.
    destruct (act a w) as [[] w1|e w1] eqn:Hact; [|done].
    apply (IH w1); [| |done..].
    + by eapply act_well_formed.
    + by eapply act_leaves_unregistered.
Qed.




End BeyondContract.

(** ** The claims on the package's test *)

Section Scenario.

(** [TestLazy]: nothing gathered before the first write, two metrics after
    it, and two after four more writes, which all reached their metrics. *)
Example TestLazy :
  (∃ w1, NewGauge (Val := named_opts) batch my_metric_1 with_batch
         = Ok metric1 w1
         ∧ NewCounter (Val := named_opts) batch my_metric_2 w1
           = Ok metric2 defined)
  ∧ registries defined = [[]]
  ∧ lazyGauge_Set metric1 42%float defined = Ok tt written
  ∧ registries written = [[c1; c2]]
  ∧ registries (final (run (Val := named_opts) batch more_writes written))
    = [[c1; c2]]
  ∧ calls <$> metrics (final (run (Val := named_opts) batch more_writes written))
    = [[CallSet 42%float; CallInc; CallDec]; [CallInc; CallAdd 3%float]].
Proof. split; [eexists; split; reflexivity|]. repeat split; reflexivity. Qed.

(** A registry that registers one collector at a time keeps the first
    [my_metric_1] when the second one makes it panic; the spec's registry
    keeps nothing of the batch. *)
Example clash_leftovers :
  MustRegister (mkStepwise []) [c1; mkCollector 1 my_metric_1]
  = Panicked (mkStepwise [c1])
  ∧ MustRegister ([] : Registry) [c1; mkCollector 1 my_metric_1]
    = Panicked [].
Proof. split; reflexivity. Qed.

(** The clashing batch: [Register] panics and registers nothing, and a
    write after the panic still reaches its metric. *)
Example clash_then_write :
  Register batch clashing = Panic RegistrationError clashed
  ∧ registries clashed = [[]]
  ∧ calls <$> metrics (final (lazyGauge_Inc metric1 clashed))
    = [[CallInc]; []].
Proof. repeat split; reflexivity. Qed.


Lemma constructors_do_not_register_witness :
  ∃ f w0 w',
    With 0 new_registry = Ok f w0
    ∧ run (Val := named_opts) f
        (define [(KGauge, my_metric_1); (KCounter, my_metric_2)]) w0
      = Ok tt w'
    ∧ registries w' = registries new_registry
    ∧ metrics w'
      = metrics new_registry
        ++ cells [(KGauge, my_metric_1); (KCounter, my_metric_2)]
    ∧ pending f w'
      = created (length (metrics new_registry))
          [(KGauge, my_metric_1); (KCounter, my_metric_2)]
    ∧ ¬ fired f w'
    ∧ (∀ c, c ∈ pending f w' → ¬ is_registered c w')
    ∧ ∀ kos',
        registries (final (run (Val := named_opts) f (define kos') w0))
        = registries new_registry.
Proof.
  apply (constructors_do_not_register (R := Registry) (Val := named_opts) 0
           [(KGauge, my_metric_1); (KCounter, my_metric_2)] new_registry).
  - apply (bool_decide_unpack _). reflexivity.
  - apply (bool_decide_unpack _). reflexivity.
Defined.

Lemma Register_idempotent_witness :
  Register batch written = Ok tt written
  ∧ ∀ ss, Forall (triggers batch) ss →
      registries (final (run (Val := named_opts) batch ss written))
      = registries written
      ∧ factories (final (run (Val := named_opts) batch ss written))
        = factories written.
Proof.
  apply (Register_idempotent (R := Registry) (Val := named_opts) batch
           (StepMutate (Gauge_Set metric1 42%float)) defined written).
  - reflexivity.
  - reflexivity.
Defined.

Lemma conflict_panics_at_first_use_witness :
  (∃ p, construct (Val := named_opts) KCounter batch my_metric_1 one_defined
        = Ok p clashing)
  ∧ refuses batch clashing.
Proof.
  destruct (conflict_panics_at_first_use (R := Registry) (Val := named_opts)
              batch one_defined (mkFactory 0 (mkOnce false) [c1]) []
              eq_refl eq_refl eq_refl) as [_ Hnew].
  destruct (Hnew KCounter my_metric_1 eq_refl) as (p & w1 & Hp & _ & Hrefuses).
  assert (w1 = clashing) as -> by (by vm_compute in Hp; simplify_eq).
  split; [by exists p|].
  apply Hrefuses. simpl. by left.
Defined.

Lemma late_metric_never_registered_witness :
  ∃ p w1,
    construct (Val := named_opts) KCounter batch my_metric_1 written = Ok p w1
    ∧ owner p = batch
    ∧ pending batch w1 = pending batch written ++ [wrapped p]
    ∧ ∀ ss, Forall (acts_on batch) ss →
        registries (final (run (Val := named_opts) batch ss w1))
        = registries written
        ∧ ¬ is_registered (wrapped p)
              (final (run (Val := named_opts) batch ss w1)).
Proof.
  apply (late_metric_never_registered (R := Registry) (Val := named_opts)
           batch written KCounter my_metric_1).
  - eexists. split; reflexivity.
  - reflexivity.
  - apply (bool_decide_unpack _). reflexivity.
Defined.



(** *** Beyond one factory *)

Lemma empty_store_well_formed {R : Type} `{!Registerer R} (w : World R) :
  factories w = [] → no_dangling w → well_formed w.
Proof.
  intros Hfs Hnd.
  assert (∀ f, pending f w = []) as Hp.
  { intros f. unfold pending. by rewrite Hfs, lookup_nil. }
  split; [done|]. split.
  - intros f c. rewrite Hp. by intros ?%elem_of_nil.
  - intros f g c c'. rewrite Hp. by intros ?%elem_of_nil.
Qed.

Lemma new_registry_well_formed : well_formed new_registry.
Proof.
  apply empty_store_well_formed; [done|].
  apply (bool_decide_unpack _). reflexivity.
Qed.

(** Module A in use, module B untouched: one metric exported, not two. *)
Example two_modules_one_used :
  registries (final (acts (Val := named_opts) use_a two_defined)) = [[c1]]
  ∧ pending module_b (final (acts (Val := named_opts) use_a two_defined))
    = [c2].
Proof. split; reflexivity. Qed.

Lemma factories_are_independent_witness :
  factories (final (acts (Val := named_opts) use_a two_defined)) !! module_b
  = factories two_defined !! module_b.
Proof.
  apply (factories_are_independent (R := Registry) (Val := named_opts)
           module_b use_a two_defined).
  - eexists. reflexivity.
  - repeat constructor; simpl; discriminate.
Defined.


Lemma writes_arrive_in_order_witness :
  metrics (final (run (Val := named_opts) batch more_writes written)) !! 0
  = Some (mkMetric KGauge my_metric_1
            ([CallSet 42%float] ++ received 0 more_writes)).
Proof.
  apply (writes_arrive_in_order (R := Registry) (Val := named_opts)
           batch more_writes written
           (final (run (Val := named_opts) batch more_writes written))
           0 (mkMetric KGauge my_metric_1 [CallSet 42%float])).
  - reflexivity.
  - reflexivity.
Defined.

Lemma failed_constructor_adds_nothing_witness :
  factories with_batch = factories with_batch
  ∧ registries with_batch = registries with_batch
  ∧ (InvalidOpts = InvalidOpts ∧ named_opts KGauge nameless = false
     ∧ with_batch = with_batch
     ∨ InvalidOpts = NilDereference ∧ factories with_batch !! batch = None
       ∧ metrics with_batch
         = metrics with_batch ++ [mkMetric KGauge nameless []]).
Proof.
  apply (failed_constructor_adds_nothing (R := Registry) (Val := named_opts)
           KGauge batch nameless with_batch InvalidOpts with_batch).
  reflexivity.
Defined.

Lemma programs_keep_store_well_formed_witness :
  well_formed (final (acts (Val := named_opts) (two_modules ++ use_a)
                        new_registry)).
Proof.
  apply (programs_keep_store_well_formed (R := Registry) (Val := named_opts)
           (two_modules ++ use_a) new_registry).
  - apply new_registry_well_formed.
  - reflexivity.
Defined.

Lemma untriggered_factory_exports_nothing_witness :
  unregistered module_b
    (final (acts (Val := named_opts) (two_modules ++ use_a) new_registry))
  ∧ ¬ fired module_b
        (final (acts (Val := named_opts) (two_modules ++ use_a)
                  new_registry)).
Proof.
  apply (untriggered_factory_exports_nothing (R := Registry)
           (Val := named_opts) module_b (two_modules ++ use_a) new_registry).
  - apply new_registry_well_formed.
  - intros c Hc. by apply elem_of_nil in Hc.
  - intros (fac & Hfac & _). discriminate Hfac.
  - repeat constructor; simpl; discriminate.
  - reflexivity.
Defined.



End Scenario.
